(** * hammdist: Hamming distance between two blobs, as an SQLite scalar function

    A shallow embedding of [src/hammdist.c] and the properties its
    specification states about it.

    Conventions of the embedding.
    - A C [uint64_t] is a [Z] in [[0, 2^64)]; every arithmetic result is
      reduced by [u64].  A C [int] is a [Z] in [[-2^31, 2^31)]; arithmetic on
      it is reduced by [to_int], the two's complement result (ISO C leaves
      signed overflow undefined; [to_int] is what the usual targets compute).
    - A blob is the list of its bytes ([Init.Byte.byte]); a pointer to it is
      the list itself and the length travels separately, as in the C code.
    - The two compile-time alternatives of the source (the population count
      intrinsic or the portable bit trick, and the byte order of the machine
      that [memcpy] exposes) are the fields of a [platform]. *)

From Stdlib Require Import ZArith List Lia Bool.
From coqutil Require Import Byte.
Import ListNotations.
Local Open Scope Z_scope.

(** ** Machine integers *)

Definition u64 (z : Z) : Z := z mod 2 ^ 64.

Definition INT_MAX : Z := 2147483647.
Definition INT_MIN : Z := -2147483648.

(** Conversion to [int]: the representative of [z] modulo [2^32] that lies in
    [[INT_MIN, INT_MAX]]. *)
Definition to_int (z : Z) : Z := (z + 2 ^ 31) mod 2 ^ 32 - 2 ^ 31.

(** [int] addition, as [diff += ...] performs it. *)
Definition int_add (x y : Z) : Z := to_int (x + y).

(** ** Population count *)

(** The number of 1-bits among the [w] low bits of [x]. *)
Definition bitcount (w : nat) (x : Z) : Z :=
  fold_right (fun i acc => Z.b2z (Z.testbit x (Z.of_nat i)) + acc) 0 (seq 0 w).

(** Modelled from the spec: the compiler intrinsics [__builtin_popcountll]
    (on [unsigned long long]) and [__builtin_popcount] (on [unsigned]), which
    the source calls and does not define.  The population count primitive is
    the count of 1-bits in an unsigned integer of the given width; both
    intrinsics return it as an [int]. *)
Definition builtin_popcountll (x : Z) : Z := bitcount 64 x.
Definition builtin_popcount (x : Z) : Z := bitcount 32 x.

(** The [#else] branch of [popcount_u64]: the portable bit trick, every step
    in [uint64_t] arithmetic, the result cast to [int]. *)
Definition popcount_u64_fallback (x : Z) : Z :=
  let x := u64 (x - Z.land (Z.shiftr x 1) 0x5555555555555555) in
  let x := u64 (Z.land x 0x3333333333333333
                + Z.land (Z.shiftr x 2) 0x3333333333333333) in
  to_int (Z.shiftr
            (u64 (Z.land (u64 (x + Z.shiftr x 4)) 0x0F0F0F0F0F0F0F0F
                  * 0x0101010101010101))
            56).

(** The byte order in which [memcpy] lays a blob over a [uint64_t]. *)
Inductive byte_order : Type := LittleEndian | BigEndian.

(** What the preprocessor and the target decide. *)
Record platform : Type := {
  has_popcnt : bool;   (* defined(__POPCNT__) || defined(__x86_64__) *)
  order : byte_order
}.

Definition popcount_u64 (pf : platform) (x : Z) : Z :=
  if has_popcnt pf then builtin_popcountll x else popcount_u64_fallback x.

(** ** The distance engine *)

(** [p[i]] widened to [unsigned].  The engine only reads below the length it
    was given; past the end of the blob the C program has no defined
    behaviour, and the model reads 0 there. *)
Definition byte_at (p : list byte) (i : Z) : Z :=
  byte.unsigned (nth (Z.to_nat i) p Byte.x00).

(** [for (int i = lo; i < hi; i++) diff = body i diff;] *)
Fixpoint for_loop (n : nat) (i : Z) (body : Z -> Z -> Z) (diff : Z) : Z :=
  match n with
  | O => diff
  | S n' => for_loop n' (i + 1) body (body i diff)
  end.

Definition for_range (lo hi : Z) (body : Z -> Z -> Z) (diff : Z) : Z :=
  for_loop (Z.to_nat (hi - lo)) lo body diff.

(** Bytes as the digits of a number in base 256, least significant first. *)
Definition digits_value (ds : list Z) : Z :=
  fold_right (fun d acc => d + 256 * acc) 0 ds.

(** [memcpy(&x, p, 8)]: the first eight bytes of the blob, read as a
    [uint64_t] in the byte order of the machine. *)
Definition load_u64 (o : byte_order) (p : list byte) : Z :=
  let bytes := map byte.unsigned (firstn 8 p) in
  match o with
  | LittleEndian => digits_value bytes
  | BigEndian => digits_value (rev bytes)
  end.

(** Lines 23-26: the body of [if (alen == 8 && blen == 8)]. *)
Definition fast_path (pf : platform) (a b : list byte) : Z :=
  let x := load_u64 (order pf) a in
  let y := load_u64 (order pf) b in
  popcount_u64 pf (Z.lxor x y).

(** Lines 30-47: the byte loop and the tail of the longer blob. *)
Definition general_path (a : list byte) (alen : Z) (b : list byte) (blen : Z) : Z :=
  let len := if alen <? blen then alen else blen in
  let diff := 0 in
  let diff :=
    for_range 0 len
      (fun i diff =>
         int_add diff (builtin_popcount (Z.lxor (byte_at a i) (byte_at b i))))
      diff in
  let diff :=
    if alen >? len then
      for_range len alen
        (fun i diff => int_add diff (builtin_popcount (byte_at a i))) diff
    else if blen >? len then
      for_range len blen
        (fun i diff => int_add diff (builtin_popcount (byte_at b i))) diff
    else diff in
  diff.

Definition hamming_distance_blob (pf : platform)
    (a : list byte) (alen : Z) (b : list byte) (blen : Z) : Z :=
  if (alen =? 8) && (blen =? 8) then fast_path pf a b
  else general_path a alen b blen.

(** The length of a blob, as the caller passes it. *)
Definition blob_len (p : list byte) : Z := Z.of_nat (length p).

(** The distance of two blobs handed over with their true lengths. *)
Definition distance (pf : platform) (a b : list byte) : Z :=
  hamming_distance_blob pf a (blob_len a) b (blob_len b).

Definition x86_64 : platform := {| has_popcnt := true; order := LittleEndian |}.
Definition portable_be : platform := {| has_popcnt := false; order := BigEndian |}.

(** ** The distance as the specification words it *)

Definition zsum (l : list Z) : Z := fold_right Z.add 0 l.

(** A blob extended with zero bytes at its high-index end to [n] bytes. *)
Definition zero_extend (n : nat) (p : list byte) : list Z :=
  map byte.unsigned p ++ repeat 0 (n - length p).

(** Both blobs zero-extended to the longer length and read as strings of
    bits (bit [k] of byte [i] is bit [8 * i + k]), XORed, the 1-bits
    counted. *)
Definition zero_extended_distance (a b : list byte) : Z :=
  let n := Nat.max (length a) (length b) in
  bitcount (8 * n)
    (Z.lxor (digits_value (zero_extend n a)) (digits_value (zero_extend n b))).

Definition xor_bits (p : Z * Z) : Z := bitcount 8 (Z.lxor (fst p) (snd p)).

Definition longer (a b : list byte) : list byte :=
  if (length a <? length b)%nat then b else a.

(** The sum over the overlapping prefix of the bits of [a[i] ^ b[i]], plus
    the bits of each trailing byte of the longer blob. *)
Definition prefix_tail_distance (a b : list byte) : Z :=
  let len := Nat.min (length a) (length b) in
  zsum (map xor_bits
          (combine (map byte.unsigned (firstn len a))
                   (map byte.unsigned (firstn len b))))
  + zsum (map (bitcount 8) (map byte.unsigned (skipn len (longer a b)))).

(** ** The host binding *)

(** The SQL values the binding is specified for. *)
Inductive sqlite3_value : Type :=
| SqlNull
| SqlBlob (bytes : list byte).

(** What a scalar function can leave in its context. *)
Inductive sql_result : Type :=
| ResultNull                 (* sqlite3_result_null *)
| ResultInt (n : Z)          (* sqlite3_result_int *)
| ResultError.               (* sqlite3_result_error; this extension never calls it *)

Record engine_call : Type := {
  call_a : list byte; call_alen : Z; call_b : list byte; call_blen : Z
}.

(** The context of one invocation: the result set so far, and (as a ghost
    field) the calls of [hamming_distance_blob] made so far. *)
Record sqlite3_context : Type := {
  ctx_result : option sql_result;
  ctx_engine_calls : list engine_call
}.

Definition fresh_context : sqlite3_context :=
  {| ctx_result := None; ctx_engine_calls := [] |}.

Definition sqlite3_result_null (ctx : sqlite3_context) : sqlite3_context :=
  {| ctx_result := Some ResultNull; ctx_engine_calls := ctx_engine_calls ctx |}.

Definition sqlite3_result_int (ctx : sqlite3_context) (n : Z) : sqlite3_context :=
  {| ctx_result := Some (ResultInt n); ctx_engine_calls := ctx_engine_calls ctx |}.

Definition note_engine_call (ctx : sqlite3_context) (c : engine_call) : sqlite3_context :=
  {| ctx_result := ctx_result ctx; ctx_engine_calls := ctx_engine_calls ctx ++ [c] |}.

Section HostBinding.
(** SQLite's accessors, which the extension only calls: the blob pointer
    of a value ([None] is the null pointer) and its length in bytes. *)
Variable sqlite3_value_blob : sqlite3_value -> option (list byte).
Variable sqlite3_value_bytes : sqlite3_value -> Z.
Variable pf : platform.

(** [argv[i]]; SQLite passes [argc] values, and the model reads [SqlNull]
    past them. *)
Definition arg (argv : list sqlite3_value) (i : nat) : sqlite3_value :=
  nth i argv SqlNull.

Definition hamming_distance_sql (ctx : sqlite3_context) (argc : Z)
    (argv : list sqlite3_value) : sqlite3_context :=
  if negb (argc =? 2) then sqlite3_result_null ctx
  else
    let a := sqlite3_value_blob (arg argv 0) in
    let b := sqlite3_value_blob (arg argv 1) in
    let alen := sqlite3_value_bytes (arg argv 0) in
    let blen := sqlite3_value_bytes (arg argv 1) in
    match a, b with
    | Some a, Some b =>
        let ctx := note_engine_call ctx
                     {| call_a := a; call_alen := alen;
                        call_b := b; call_blen := blen |} in
        let dist := hamming_distance_blob pf a alen b blen in
        sqlite3_result_int ctx dist
    | _, _ => sqlite3_result_null ctx
    end.
End HostBinding.

(** SQLite itself is not part of the source, so the binding above takes its
    accessors as parameters.  This is the instance SQLite's documentation
    describes: a NULL value and a zero-length blob both give the null
    pointer, and the length is an [int]. *)
Definition sqlite_value_blob (v : sqlite3_value) : option (list byte) :=
  match v with
  | SqlNull => None
  | SqlBlob [] => None
  | SqlBlob bytes => Some bytes
  end.

Definition sqlite_value_bytes (v : sqlite3_value) : Z :=
  match v with
  | SqlNull => 0
  | SqlBlob bytes => to_int (blob_len bytes)
  end.

(** ** Auxiliary definitions of the proofs *)

Definition is_digit (d : Z) : Prop := 0 <= d < 256.

(** The mask whose [n] bytes all equal [m]. *)
Definition rep8 (n : nat) (m : Z) : Z := digits_value (repeat m n).

(** The three masking steps of the bit trick, on one byte. *)
Definition s1 (d : Z) : Z := d - Z.land (d / 2) 0x55.
Definition s2 (d : Z) : Z := Z.land d 0x33 + Z.land (d / 4) 0x33.
Definition s3 (d : Z) : Z := Z.land (d + d / 16) 0x0F.

Definition small_nibbles (d : Z) : Prop := 0 <= d mod 16 <= 4 /\ 0 <= d / 16 <= 4.

(** The [n] low base-256 digits of [x]. *)
Fixpoint le_digits (n : nat) (x : Z) : list Z :=
  match n with
  | O => []
  | S n' => x mod 256 :: le_digits n' (x / 256)
  end.

(** [g i + g (i + 1) + ...], [n] terms. *)
Fixpoint sum_from (g : Z -> Z) (i : Z) (n : nat) : Z :=
  match n with
  | O => 0
  | S n' => g i + sum_from g (i + 1) n'
  end.

(** The distance by recursion on the two lists of byte values. *)
Fixpoint ref_distance (a b : list Z) : Z :=
  match a, b with
  | [], _ => zsum (map (bitcount 8) b)
  | x :: a', [] => bitcount 8 x + ref_distance a' []
  | x :: a', y :: b' => bitcount 8 (Z.lxor x y) + ref_distance a' b'
  end.

(** The least number of bytes whose bits no longer fit an [int]: [2^28]
    bytes hold [2^31 = INT_MAX + 1] bits.  SQLite's default length limit for
    a blob is 10^9 bytes, well above it. *)
Definition overflow_len : nat := Z.to_nat 268435456.

(** * Properties *)

(** ** Examples of the specification *)

Example popcount_fallback_zero : popcount_u64_fallback 0 = 0.
Proof. reflexivity. Qed.
Example popcount_fallback_ones : popcount_u64_fallback (2 ^ 64 - 1) = 64.
Proof. reflexivity. Qed.
Example popcount_fallback_two : popcount_u64_fallback 0x8000000000000001 = 2.
Proof. reflexivity. Qed.
Example popcount_builtin_two : builtin_popcountll 0x8000000000000001 = 2.
Proof. reflexivity. Qed.

Example distance_empty : distance portable_be [] [] = 0.
Proof. reflexivity. Qed.
Example distance_empty_ff : distance x86_64 [] [Byte.xff] = 8.
Proof. reflexivity. Qed.
Example distance_8_bytes :
  distance portable_be (repeat Byte.x00 8) (repeat Byte.xff 8) = 64.
Proof. reflexivity. Qed.
Example distance_single : distance x86_64 [Byte.xb0] [Byte.x10] = 2.
Proof. reflexivity. Qed.
Example distance_tail :
  distance x86_64 (repeat Byte.x00 8) (repeat Byte.x00 8 ++ [Byte.xff; Byte.xff])
  = 16.
Proof. reflexivity. Qed.
Example zero_extended_distance_tail :
  zero_extended_distance (repeat Byte.x00 8) (repeat Byte.x00 8 ++ [Byte.xff; Byte.xff])
  = 16.
Proof. reflexivity. Qed.
Example prefix_tail_distance_ex :
  prefix_tail_distance [Byte.xb0; Byte.x01] [Byte.x10] = 3.
Proof. reflexivity. Qed.
Example sql_two_blobs :
  ctx_result (hamming_distance_sql sqlite_value_blob sqlite_value_bytes x86_64
                fresh_context 2 [SqlBlob [Byte.xb0]; SqlBlob [Byte.x10]])
  = Some (ResultInt 2).
Proof. reflexivity. Qed.

(** ** Bytes as base-256 digits *)

Lemma split256 (r : Z) : r = r mod 256 + 256 * (r / 256).
Proof. pose proof (Z.div_mod r 256); lia. Qed.

Lemma low8_add (d X : Z) : 0 <= d < 256 -> (d + 256 * X) mod 256 = d.
Proof. intros; Z.div_mod_to_equations; lia. Qed.

Lemma high8_add (d X : Z) : 0 <= d < 256 -> (d + 256 * X) / 256 = X.
Proof. intros; Z.div_mod_to_equations; lia. Qed.

Lemma land_mod256 (A B : Z) : Z.land A B mod 256 = Z.land (A mod 256) (B mod 256).
Proof.
  change 256 with (2 ^ 8). rewrite <- !Z.land_ones by lia.
  rewrite <- (Z.land_diag (Z.ones 8)) at 1.
  rewrite !Z.land_assoc. f_equal.
  rewrite <- !Z.land_assoc. f_equal. apply Z.land_comm.
Qed.

Lemma land_div256 (A B : Z) : Z.land A B / 256 = Z.land (A / 256) (B / 256).
Proof.
  change 256 with (2 ^ 8). rewrite <- !Z.shiftr_div_pow2 by lia.
  apply Z.shiftr_land.
Qed.

Lemma land_split8 (d m X Y : Z) :
  0 <= d < 256 -> 0 <= m < 256 ->
  Z.land (d + 256 * X) (m + 256 * Y) = Z.land d m + 256 * Z.land X Y.
Proof.
  intros Hd Hm. rewrite (split256 (Z.land _ _)).
  rewrite land_mod256, land_div256, !low8_add, !high8_add by assumption.
  reflexivity.
Qed.

Lemma lxor_mod256 (A B : Z) : Z.lxor A B mod 256 = Z.lxor (A mod 256) (B mod 256).
Proof.
  change 256 with (2 ^ 8). rewrite <- !Z.land_ones by lia.
  apply Z.bits_inj'; intros n _.
  rewrite !Z.lxor_spec, !Z.land_spec, Z.lxor_spec.
  destruct (Z.testbit A n), (Z.testbit B n), (Z.testbit (Z.ones 8) n); reflexivity.
Qed.

Lemma lxor_div256 (A B : Z) : Z.lxor A B / 256 = Z.lxor (A / 256) (B / 256).
Proof.
  change 256 with (2 ^ 8). rewrite <- !Z.shiftr_div_pow2 by lia.
  apply Z.shiftr_lxor.
Qed.

Lemma lxor_split8 (d m X Y : Z) :
  0 <= d < 256 -> 0 <= m < 256 ->
  Z.lxor (d + 256 * X) (m + 256 * Y) = Z.lxor d m + 256 * Z.lxor X Y.
Proof.
  intros Hd Hm. rewrite (split256 (Z.lxor _ _)).
  rewrite lxor_mod256, lxor_div256, !low8_add, !high8_add by assumption.
  reflexivity.
Qed.

Lemma bitcount_shift (x : Z) (l : list nat) :
  fold_right (fun i acc => Z.b2z (Z.testbit x (Z.of_nat i)) + acc) 0 (map S l)
  = fold_right (fun i acc => Z.b2z (Z.testbit (x / 2) (Z.of_nat i)) + acc) 0 l.
Proof.
  induction l as [|i l IH]; cbn [map fold_right]; [reflexivity|].
  rewrite IH. f_equal. f_equal.
  rewrite Nat2Z.inj_succ, Z.div2_bits by lia.
  reflexivity.
Qed.

Lemma bitcount_succ (w : nat) (x : Z) :
  bitcount (S w) x = Z.b2z (Z.odd x) + bitcount w (x / 2).
Proof.
  unfold bitcount. rewrite <- cons_seq, <- seq_shift. cbn [fold_right].
  rewrite bitcount_shift. change (Z.of_nat 0) with 0. rewrite Z.bit0_odd. reflexivity.
Qed.

Lemma bitcount_zero (w : nat) : bitcount w 0 = 0.
Proof.
  induction w as [|w IH]; [reflexivity|].
  rewrite bitcount_succ. change (0 / 2) with 0. rewrite IH. reflexivity.
Qed.

Lemma bitcount_range (w : nat) (x : Z) : 0 <= bitcount w x <= Z.of_nat w.
Proof.
  revert x; induction w as [|w IH]; intros x.
  - cbn. lia.
  - rewrite bitcount_succ. specialize (IH (x / 2)).
    destruct (Z.odd x); cbn [Z.b2z]; lia.
Qed.

Lemma bitcount_add (n m : nat) (x : Z) :
  bitcount (n + m) x = bitcount n x + bitcount m (x / 2 ^ Z.of_nat n).
Proof.
  revert x; induction n as [|n IH]; intros x.
  - cbn [Nat.add]. change (2 ^ Z.of_nat 0) with 1.
    rewrite Z.div_1_r. change (bitcount 0 x) with 0. lia.
  - cbn [Nat.add]. rewrite !bitcount_succ, IH.
    rewrite Z.div_div by lia.
    rewrite Nat2Z.inj_succ, Z.pow_succ_r by lia. lia.
Qed.

Lemma bitcount_low (n : nat) (d X : Z) :
  bitcount n (d + 2 ^ Z.of_nat n * X) = bitcount n d.
Proof.
  revert d X; induction n as [|n IH]; intros d X; [reflexivity|].
  rewrite !bitcount_succ.
  rewrite Nat2Z.inj_succ, Z.pow_succ_r by lia.
  replace (d + 2 * 2 ^ Z.of_nat n * X) with (d + 2 * (2 ^ Z.of_nat n * X)) by lia.
  assert (Hodd : Z.odd (d + 2 * (2 ^ Z.of_nat n * X)) = Z.odd d).
  { rewrite Z.odd_add, Z.odd_mul. cbn. destruct (Z.odd d); reflexivity. }
  rewrite Hodd. f_equal.
  replace ((d + 2 * (2 ^ Z.of_nat n * X)) / 2) with (d / 2 + 2 ^ Z.of_nat n * X)
    by (Z.div_mod_to_equations; lia).
  apply IH.
Qed.

Lemma bitcount_small (n m : nat) (x : Z) :
  0 <= x < 2 ^ Z.of_nat n -> bitcount (n + m) x = bitcount n x.
Proof.
  intros Hx. rewrite bitcount_add, Z.div_small, bitcount_zero by assumption. lia.
Qed.

Lemma digits_value_range (ds : list Z) :
  Forall is_digit ds -> 0 <= digits_value ds < 256 ^ Z.of_nat (length ds).
Proof.
  induction 1 as [|d ds Hd _ IH]; cbn [digits_value fold_right length].
  - cbn. lia.
  - fold (digits_value ds). rewrite Nat2Z.inj_succ, Z.pow_succ_r by lia.
    unfold is_digit in Hd. lia.
Qed.

Lemma bitcount_digits (ds : list Z) :
  Forall is_digit ds ->
  bitcount (8 * length ds) (digits_value ds) = zsum (map (bitcount 8) ds).
Proof.
  induction 1 as [|d ds Hd Hds IH]; [reflexivity|].
  cbn [length]. replace (8 * S (length ds))%nat with (8 + 8 * length ds)%nat by lia.
  cbn [digits_value fold_right map zsum]. fold (digits_value ds). fold (zsum (map (bitcount 8) ds)).
  rewrite bitcount_add. change (2 ^ Z.of_nat 8) with 256.
  rewrite high8_add by exact Hd. rewrite IH. f_equal.
  apply (bitcount_low 8 d (digits_value ds)).
Qed.

Lemma forall_below (n : nat) (p : Z -> bool) :
  forallb p (map Z.of_nat (seq 0 n)) = true ->
  forall z, 0 <= z < Z.of_nat n -> p z = true.
Proof.
  intros H z Hz. rewrite forallb_forall in H. apply H.
  apply in_map_iff. exists (Z.to_nat z). split; [lia|].
  apply in_seq. lia.
Qed.

Lemma mask_carry_in (k m : Z) :
  forallb (fun d => forallb (fun e =>
     Z.land (d / 2 ^ k + 2 ^ (8 - k) * e) m =? Z.land (d / 2 ^ k) m)
     (map Z.of_nat (seq 0 (Z.to_nat (2 ^ k))))) (map Z.of_nat (seq 0 256)) = true ->
  0 <= k ->
  forall d e, is_digit d -> 0 <= e < 2 ^ k ->
    Z.land (d / 2 ^ k + 2 ^ (8 - k) * e) m = Z.land (d / 2 ^ k) m.
Proof.
  intros H Hk d e Hd He.
  apply forall_below with (z := d) in H; [|exact Hd].
  apply forall_below with (z := e) in H; [|rewrite Z2Nat.id; lia].
  apply Z.eqb_eq, H.
Qed.

Lemma land_shiftr_digits (k m : Z) (ds : list Z) :
  0 <= k <= 8 -> 0 <= m < 256 ->
  (forall d e, is_digit d -> 0 <= e < 2 ^ k ->
     Z.land (d / 2 ^ k + 2 ^ (8 - k) * e) m = Z.land (d / 2 ^ k) m) ->
  Forall is_digit ds ->
  Z.land (Z.shiftr (digits_value ds) k) (rep8 (length ds) m)
  = digits_value (map (fun d => Z.land (d / 2 ^ k) m) ds).
Proof.
  intros Hk Hm Hcarry Hds. induction Hds as [|d ds Hd Hds IH].
  - cbn. apply Z.land_0_r.
  - unfold rep8 in *. cbn [length repeat map digits_value fold_right].
    fold (digits_value ds). fold (digits_value (repeat m (length ds))).
    fold (digits_value (map (fun d => Z.land (d / 2 ^ k) m) ds)).
    rewrite <- IH. rewrite !Z.shiftr_div_pow2 by lia.
    set (X := digits_value ds).
    assert (HX : 0 <= X) by (apply digits_value_range; exact Hds).
    assert (Hp : 0 < 2 ^ k) by (apply Z.pow_pos_nonneg; lia).
    assert (H256 : 256 = 2 ^ k * 2 ^ (8 - k))
      by (rewrite <- Z.pow_add_r by lia; replace (k + (8 - k)) with 8 by lia; reflexivity).
    assert (Hq : 0 < 2 ^ (8 - k)) by (apply Z.pow_pos_nonneg; lia).
    assert (Hsplit : (d + 256 * X) / 2 ^ k
                     = (d / 2 ^ k + 2 ^ (8 - k) * (X mod 2 ^ k)) + 256 * (X / 2 ^ k)).
    { rewrite (Z.div_mod X (2 ^ k)) at 1 by lia.
      rewrite H256 at 1.
      replace (d + 2 ^ k * 2 ^ (8 - k) * (2 ^ k * (X / 2 ^ k) + X mod 2 ^ k))
        with (d + (2 ^ (8 - k) * (X mod 2 ^ k) + 2 ^ k * 2 ^ (8 - k) * (X / 2 ^ k)) * 2 ^ k)
        by ring.
      rewrite Z.div_add by lia. rewrite <- H256. ring. }
    rewrite Hsplit.
    pose proof (Z.mod_pos_bound X (2 ^ k) Hp) as He.
    assert (Hdk : 0 <= d / 2 ^ k < 2 ^ (8 - k)).
    { unfold is_digit in Hd. split; [apply Z.div_pos; lia|].
      apply Z.div_lt_upper_bound; lia. }
    rewrite land_split8; [|nia|exact Hm].
    rewrite Hcarry by assumption. reflexivity.
Qed.

Lemma land_digits (m : Z) (ds : list Z) :
  0 <= m < 256 -> Forall is_digit ds ->
  Z.land (digits_value ds) (rep8 (length ds) m)
  = digits_value (map (fun d => Z.land d m) ds).
Proof.
  intros Hm Hds. induction Hds as [|d ds Hd Hds IH].
  - reflexivity.
  - unfold rep8 in *. cbn [length repeat map digits_value fold_right].
    fold (digits_value ds). fold (digits_value (repeat m (length ds))).
    fold (digits_value (map (fun d => Z.land d m) ds)).
    rewrite land_split8, IH by assumption. reflexivity.
Qed.

Lemma digits_value_sub (f g : Z -> Z) (ds : list Z) :
  digits_value (map f ds) - digits_value (map g ds)
  = digits_value (map (fun d => f d - g d) ds).
Proof.
  induction ds as [|d ds IH]; [reflexivity|].
  cbn [map digits_value fold_right].
  fold (digits_value (map f ds)). fold (digits_value (map g ds)).
  fold (digits_value (map (fun d => f d - g d) ds)). rewrite <- IH. ring.
Qed.

Lemma digits_value_add (f g : Z -> Z) (ds : list Z) :
  digits_value (map f ds) + digits_value (map g ds)
  = digits_value (map (fun d => f d + g d) ds).
Proof.
  induction ds as [|d ds IH]; [reflexivity|].
  cbn [map digits_value fold_right].
  fold (digits_value (map f ds)). fold (digits_value (map g ds)).
  fold (digits_value (map (fun d => f d + g d) ds)). rewrite <- IH. ring.
Qed.

Lemma carry_in_55 (d e : Z) :
  is_digit d -> 0 <= e < 2 ^ 1 ->
  Z.land (d / 2 ^ 1 + 2 ^ (8 - 1) * e) 0x55 = Z.land (d / 2 ^ 1) 0x55.
Proof. apply mask_carry_in; [vm_compute; reflexivity | lia]. Qed.

Lemma carry_in_33 (d e : Z) :
  is_digit d -> 0 <= e < 2 ^ 2 ->
  Z.land (d / 2 ^ 2 + 2 ^ (8 - 2) * e) 0x33 = Z.land (d / 2 ^ 2) 0x33.
Proof. apply mask_carry_in; [vm_compute; reflexivity | lia]. Qed.

Lemma digit_facts (d : Z) :
  is_digit d ->
  is_digit (s1 d) /\ is_digit (s2 (s1 d)) /\ small_nibbles (s2 (s1 d))
  /\ s3 (s2 (s1 d)) = bitcount 8 d.
Proof.
  intros Hd.
  assert (H : ((0 <=? s1 d) && (s1 d <? 256)
               && (0 <=? s2 (s1 d)) && (s2 (s1 d) <? 256)
               && (0 <=? s2 (s1 d) mod 16) && (s2 (s1 d) mod 16 <=? 4)
               && (0 <=? s2 (s1 d) / 16) && (s2 (s1 d) / 16 <=? 4)
               && (s3 (s2 (s1 d)) =? bitcount 8 d)) = true).
  { revert d Hd. apply (forall_below 256). vm_compute. reflexivity. }
  unfold is_digit, small_nibbles.
  repeat (apply andb_prop in H; destruct H as [H ?]).
  repeat match goal with
         | H : (_ <=? _) = true |- _ => apply Z.leb_le in H
         | H : (_ <? _) = true |- _ => apply Z.ltb_lt in H
         | H : (_ =? _) = true |- _ => apply Z.eqb_eq in H
         end.
  repeat split; assumption.
Qed.

Lemma step1_digits (ds : list Z) :
  Forall is_digit ds ->
  digits_value ds - Z.land (Z.shiftr (digits_value ds) 1) (rep8 (length ds) 0x55)
  = digits_value (map s1 ds).
Proof.
  intros Hds.
  rewrite land_shiftr_digits by (try exact carry_in_55; try exact Hds; lia).
  rewrite <- (map_id ds) at 1. rewrite digits_value_sub. reflexivity.
Qed.

Lemma step2_digits (ds : list Z) :
  Forall is_digit ds ->
  Z.land (digits_value ds) (rep8 (length ds) 0x33)
  + Z.land (Z.shiftr (digits_value ds) 2) (rep8 (length ds) 0x33)
  = digits_value (map s2 ds).
Proof.
  intros Hds.
  rewrite land_shiftr_digits by (try exact carry_in_33; try exact Hds; lia).
  rewrite land_digits by (try exact Hds; lia).
  rewrite digits_value_add. reflexivity.
Qed.

Lemma small_nibbles_low (ds : list Z) :
  Forall small_nibbles ds -> 0 <= digits_value ds mod 16 <= 4.
Proof.
  destruct 1 as [|d ds [Hd _] _]; [cbn; lia|].
  cbn [digits_value fold_right]. fold (digits_value ds).
  replace ((d + 256 * digits_value ds) mod 16) with (d mod 16); [exact Hd|].
  Z.div_mod_to_equations; lia.
Qed.

Lemma small_nibbles_digit (d : Z) : small_nibbles d -> is_digit d.
Proof. unfold small_nibbles, is_digit. intros [H1 H2]. Z.div_mod_to_equations; lia. Qed.

Lemma step3_digits (ds : list Z) :
  Forall small_nibbles ds ->
  Z.land (digits_value ds + Z.shiftr (digits_value ds) 4) (rep8 (length ds) 0x0F)
  = digits_value (map s3 ds).
Proof.
  induction 1 as [|d ds Hd Hds IH].
  - reflexivity.
  - unfold rep8 in *. cbn [length repeat map digits_value fold_right].
    fold (digits_value ds). fold (digits_value (repeat 15 (length ds))).
    fold (digits_value (map s3 ds)). rewrite <- IH.
    rewrite !Z.shiftr_div_pow2 by lia. change (2 ^ 4) with 16.
    pose proof (small_nibbles_low ds Hds) as Hlow.
    set (X := digits_value ds) in *.
    replace (d + 256 * X + (d + 256 * X) / 16)
      with ((d + d / 16 + 16 * (X mod 16)) + 256 * (X + X / 16))
      by (Z.div_mod_to_equations; lia).
    destruct Hd as [Hd1 Hd2].
    rewrite land_split8 by (Z.div_mod_to_equations; lia).
    f_equal. unfold s3. change 15 with (Z.ones 4).
    rewrite !Z.land_ones by lia. change (2 ^ 4) with 16.
    Z.div_mod_to_equations; lia.
Qed.

Lemma length8 {A : Type} (l : list A) :
  length l = 8%nat ->
  exists a b c d e f g h, l = [a; b; c; d; e; f; g; h].
Proof.
  intros H. do 8 (destruct l as [|? l]; [discriminate|]).
  destruct l; [|discriminate]. repeat eexists.
Qed.

Lemma mod_add_multiple (m r q : Z) : 0 <= r < m -> (r + m * q) mod m = r.
Proof.
  intros H. rewrite (Z.mul_comm m q), Z.mod_add by lia. apply Z.mod_small, H.
Qed.

Lemma div_add_multiple (m r q : Z) : 0 <= r < m -> (r + m * q) / m = q.
Proof.
  intros H. rewrite (Z.mul_comm m q), Z.div_add by lia.
  rewrite Z.div_small by exact H. reflexivity.
Qed.

Lemma mul_top_byte (cs : list Z) :
  length cs = 8%nat -> Forall (fun c => 0 <= c <= 8) cs ->
  Z.shiftr (u64 (digits_value cs * 0x0101010101010101)) 56 = zsum cs.
Proof.
  intros Hlen Hcs.
  destruct (length8 cs Hlen) as (c0 & c1 & c2 & c3 & c4 & c5 & c6 & c7 & ->).
  repeat match goal with
         | H : Forall _ (_ :: _) |- _ => inversion H; subst; clear H
         end.
  rewrite Z.shiftr_div_pow2 by lia. unfold u64.
  cbn [digits_value fold_right zsum].
  set (S := c0 + (c1 + (c2 + (c3 + (c4 + (c5 + (c6 + (c7 + 0)))))))).
  set (L := c0 + 256 * ((c0 + c1) + 256 * ((c0 + c1 + c2)
            + 256 * ((c0 + c1 + c2 + c3) + 256 * ((c0 + c1 + c2 + c3 + c4)
            + 256 * ((c0 + c1 + c2 + c3 + c4 + c5)
            + 256 * (c0 + c1 + c2 + c3 + c4 + c5 + c6))))))).
  set (H := (c1 + c2 + c3 + c4 + c5 + c6 + c7)
            + 256 * ((c2 + c3 + c4 + c5 + c6 + c7)
            + 256 * ((c3 + c4 + c5 + c6 + c7) + 256 * ((c4 + c5 + c6 + c7)
            + 256 * ((c5 + c6 + c7) + 256 * ((c6 + c7) + 256 * c7)))))).
  replace ((c0 + 256 * (c1 + 256 * (c2 + 256 * (c3 + 256 * (c4 + 256 * (c5
            + 256 * (c6 + 256 * (c7 + 256 * 0)))))))) * 0x0101010101010101)
    with ((L + 2 ^ 56 * S) + 2 ^ 64 * H) by (subst S L H; ring).
  assert (HL : 0 <= L < 2 ^ 56) by (subst L; lia).
  assert (HS : 0 <= S < 256) by (subst S; lia).
  rewrite mod_add_multiple by lia.
  apply div_add_multiple, HL.
Qed.

Lemma u64_small (z : Z) : 0 <= z < 2 ^ 64 -> u64 z = z.
Proof. apply Z.mod_small. Qed.

Lemma to_int_small (z : Z) : - 2 ^ 31 <= z < 2 ^ 31 -> to_int z = z.
Proof. unfold to_int. intros H. rewrite Z.mod_small; lia. Qed.

Lemma digits_u64 (ds : list Z) :
  length ds = 8%nat -> Forall is_digit ds -> u64 (digits_value ds) = digits_value ds.
Proof.
  intros Hlen Hds. apply u64_small.
  pose proof (digits_value_range ds Hds) as H. rewrite Hlen in H. exact H.
Qed.

Lemma zsum_range (n : Z) (l : list Z) :
  Forall (fun c => 0 <= c <= n) l -> 0 <= zsum l <= n * Z.of_nat (length l).
Proof.
  induction 1 as [|c l Hc _ IH]; cbn [zsum fold_right length]; [lia|].
  fold (zsum l). lia.
Qed.

Lemma Forall_map_digits (P : Z -> Prop) (f : Z -> Z) (ds : list Z) :
  (forall d, is_digit d -> P (f d)) -> Forall is_digit ds -> Forall P (map f ds).
Proof. intros H Hds. apply Forall_map. eapply Forall_impl; [exact H | exact Hds]. Qed.

Lemma digits_value_half_range (ds : list Z) :
  Forall small_nibbles ds -> 0 <= 2 * digits_value ds < 256 ^ Z.of_nat (length ds).
Proof.
  induction 1 as [|d ds Hd _ IH]; cbn [digits_value fold_right length].
  - cbn. lia.
  - fold (digits_value ds). rewrite Nat2Z.inj_succ, Z.pow_succ_r by lia.
    destruct Hd as [Hd1 Hd2]. Z.div_mod_to_equations. lia.
Qed.

Lemma fallback_digits (ds : list Z) :
  length ds = 8%nat -> Forall is_digit ds ->
  popcount_u64_fallback (digits_value ds) = zsum (map (bitcount 8) ds).
Proof.
  intros Hlen Hds. unfold popcount_u64_fallback.
  change 0x5555555555555555 with (rep8 8 0x55).
  change 0x3333333333333333 with (rep8 8 0x33).
  change 0x0F0F0F0F0F0F0F0F with (rep8 8 0x0F).
  assert (H1 : Forall is_digit (map s1 ds))
    by (apply Forall_map_digits; [apply digit_facts | exact Hds]).
  assert (H2 : Forall small_nibbles (map s2 (map s1 ds))).
  { rewrite map_map. apply Forall_map_digits; [apply digit_facts | exact Hds]. }
  assert (H2' : Forall is_digit (map s2 (map s1 ds)))
    by (eapply Forall_impl; [exact small_nibbles_digit | exact H2]).
  assert (H3 : map s3 (map s2 (map s1 ds)) = map (bitcount 8) ds).
  { rewrite !map_map. apply map_ext_in. intros d Hin.
    apply digit_facts. rewrite Forall_forall in Hds. auto. }
  assert (H3' : Forall (fun c => 0 <= c <= 8) (map (bitcount 8) ds)).
  { apply Forall_map, Forall_forall. intros d _. apply (bitcount_range 8). }
  assert (L1 : length (map s1 ds) = 8%nat) by (rewrite length_map; exact Hlen).
  assert (L2 : length (map s2 (map s1 ds)) = 8%nat) by (rewrite length_map; exact L1).
  pose proof (step1_digits ds Hds) as E1. rewrite Hlen in E1.
  pose proof (step2_digits _ H1) as E2. rewrite L1 in E2.
  pose proof (step3_digits _ H2) as E3. rewrite L2, H3 in E3.
  rewrite E1, digits_u64 by assumption.
  rewrite E2, digits_u64 by assumption.
  assert (Hsum : u64 (digits_value (map s2 (map s1 ds))
                      + Z.shiftr (digits_value (map s2 (map s1 ds))) 4)
                 = digits_value (map s2 (map s1 ds))
                   + Z.shiftr (digits_value (map s2 (map s1 ds))) 4).
  { apply u64_small. pose proof (digits_value_half_range _ H2) as Hr.
    rewrite L2 in Hr. rewrite Z.shiftr_div_pow2 by lia.
    change (256 ^ Z.of_nat 8) with (2 ^ 64) in Hr.
    Z.div_mod_to_equations. lia. }
  rewrite Hsum, E3.
  rewrite mul_top_byte by (rewrite ?length_map; assumption).
  apply to_int_small. pose proof (zsum_range 8 _ H3') as Hr.
  rewrite length_map, Hlen in Hr. lia.
Qed.

(** ** The population count *)

Lemma le_digits_length (n : nat) (x : Z) : length (le_digits n x) = n.
Proof. revert x; induction n as [|n IH]; intros x; cbn; [|rewrite IH]; reflexivity. Qed.

Lemma le_digits_are_digits (n : nat) (x : Z) : Forall is_digit (le_digits n x).
Proof.
  revert x; induction n as [|n IH]; intros x; cbn [le_digits]; constructor.
  - apply Z.mod_pos_bound. lia.
  - apply IH.
Qed.

Lemma digits_value_le_digits (n : nat) (x : Z) :
  0 <= x < 256 ^ Z.of_nat n -> digits_value (le_digits n x) = x.
Proof.
  revert x; induction n as [|n IH]; intros x Hx.
  - cbn in *. lia.
  - cbn [le_digits digits_value fold_right]. fold (digits_value (le_digits n (x / 256))).
    rewrite Nat2Z.inj_succ, Z.pow_succ_r in Hx by lia.
    rewrite IH by (Z.div_mod_to_equations; lia).
    symmetry. apply split256.
Qed.

Lemma popcount_u64_fallback_counts (x : Z) :
  0 <= x < 2 ^ 64 -> popcount_u64_fallback x = bitcount 64 x.
Proof.
  intros Hx.
  rewrite <- (digits_value_le_digits 8 x) by exact Hx.
  rewrite fallback_digits by (apply le_digits_length || apply le_digits_are_digits).
  rewrite <- bitcount_digits by apply le_digits_are_digits.
  rewrite le_digits_length. reflexivity.
Qed.

(** C7. For every 64-bit unsigned [x], [popcount_u64] returns the number of
    1-bits of [x] whichever branch the preprocessor selected, so the
    intrinsic and the portable bit trick agree on [x]; it returns 0 on 0 and
    64 on the all-ones value. *)
Theorem popcount_u64_counts_bits (pf : platform) (x : Z) :
  0 <= x < 2 ^ 64 ->
  popcount_u64 pf x = bitcount 64 x
  /\ popcount_u64_fallback x = builtin_popcountll x
  /\ popcount_u64 pf 0 = 0
  /\ popcount_u64 pf (2 ^ 64 - 1) = 64.
Proof.
  intros Hx. repeat split.
  - unfold popcount_u64. destruct (has_popcnt pf);
      [reflexivity | apply popcount_u64_fallback_counts, Hx].
  - apply popcount_u64_fallback_counts, Hx.
  - unfold popcount_u64. destruct (has_popcnt pf); reflexivity.
  - unfold popcount_u64. destruct (has_popcnt pf); reflexivity.
Qed.

Lemma popcount_u64_counts_bits_witness :
  0 <= 0x8000000000000001 < 2 ^ 64
  /\ popcount_u64 portable_be 0x8000000000000001 = 2.
Proof.
  split; [lia|].
  destruct (popcount_u64_counts_bits portable_be 0x8000000000000001) as [H _]; [lia|].
  rewrite H. reflexivity.
Defined.

(** ** [int] arithmetic and the loops *)

Lemma to_int_range (z : Z) : INT_MIN <= to_int z <= INT_MAX.
Proof.
  unfold to_int, INT_MIN, INT_MAX.
  pose proof (Z.mod_pos_bound (z + 2 ^ 31) (2 ^ 32)). lia.
Qed.

Lemma to_int_add_l (a b : Z) : to_int (to_int a + b) = to_int (a + b).
Proof.
  unfold to_int.
  replace ((a + 2 ^ 31) mod 2 ^ 32 - 2 ^ 31 + b + 2 ^ 31)
    with ((a + 2 ^ 31) mod 2 ^ 32 + b) by ring.
  rewrite Z.add_mod_idemp_l by lia.
  f_equal. f_equal. ring.
Qed.

Lemma for_loop_sum (g : Z -> Z) (n : nat) (i s : Z) :
  for_loop n i (fun i diff => int_add diff (g i)) (to_int s)
  = to_int (s + sum_from g i n).
Proof.
  revert i s; induction n as [|n IH]; intros i s; cbn [for_loop sum_from].
  - f_equal. ring.
  - unfold int_add at 2. rewrite to_int_add_l, IH. f_equal. ring.
Qed.

Lemma sum_from_nonneg (g : Z -> Z) (n : nat) (i : Z) :
  (forall j, 0 <= g j) -> 0 <= sum_from g i n.
Proof.
  intros Hg. revert i; induction n as [|n IH]; intros i; cbn [sum_from]; [lia|].
  specialize (IH (i + 1)). specialize (Hg i). lia.
Qed.

(** While the running total stays within [int], every iteration of a loop
    adds exactly: after [k] of the [n] iterations [diff] is the plain sum of
    the first [k] terms, and no addition has overflowed. *)
Lemma for_loop_exact (g : Z -> Z) (n k : nat) (i s : Z) :
  (forall j, 0 <= g j) -> 0 <= s -> s + sum_from g i n <= INT_MAX ->
  (k <= n)%nat ->
  for_loop k i (fun i diff => int_add diff (g i)) s = s + sum_from g i k
  /\ 0 <= s + sum_from g i k <= INT_MAX.
Proof.
  intros Hg. revert n i s; induction k as [|k IH]; intros n i s Hs Hfit Hk.
  - cbn [for_loop sum_from].
    pose proof (sum_from_nonneg g n i Hg). split; lia.
  - destruct n as [|n]; [lia|]. cbn [for_loop sum_from] in *.
    pose proof (sum_from_nonneg g n (i + 1) Hg) as Hrest. pose proof (Hg i) as Hi.
    assert (Hstep : int_add s (g i) = s + g i)
      by (apply to_int_small; unfold INT_MAX in Hfit; lia).
    rewrite Hstep.
    destruct (IH n (i + 1) (s + g i)) as [E R]; lia.
Qed.

Lemma sum_from_seq (g : Z -> Z) (n k : nat) :
  sum_from g (Z.of_nat k) n = zsum (map (fun j => g (Z.of_nat j)) (seq k n)).
Proof.
  revert k; induction n as [|n IH]; intros k; cbn [sum_from seq map zsum fold_right].
  - reflexivity.
  - fold (zsum (map (fun j => g (Z.of_nat j)) (seq (S k) n))).
    rewrite <- IH. do 2 f_equal. lia.
Qed.

Lemma zsum_seq_shift (h : nat -> Z) (k n : nat) :
  zsum (map h (seq (S k) n)) = zsum (map (fun j => h (S j)) (seq k n)).
Proof. rewrite <- seq_shift, map_map. reflexivity. Qed.

Lemma zsum_nth_seq {A : Type} (f : A -> Z) (d : A) (l : list A) :
  zsum (map (fun j => f (nth j l d)) (seq 0 (length l))) = zsum (map f l).
Proof.
  induction l as [|x l IH]; [reflexivity|].
  cbn [length seq map zsum fold_right nth].
  fold (zsum (map f l)).
  fold (zsum (map (fun j => f (nth j (x :: l) d)) (seq 1 (length l)))).
  rewrite zsum_seq_shift. cbn [nth]. rewrite IH. reflexivity.
Qed.

Lemma zsum_app (l1 l2 : list Z) : zsum (l1 ++ l2) = zsum l1 + zsum l2.
Proof.
  induction l1 as [|x l1 IH]; cbn [app zsum fold_right]; [reflexivity|].
  fold (zsum (l1 ++ l2)). fold (zsum l1). rewrite IH. ring.
Qed.

Lemma byte_is_digit (x : byte) : is_digit (byte.unsigned x).
Proof. exact (byte.unsigned_range x). Qed.

Lemma bytes_are_digits (p : list byte) : Forall is_digit (map byte.unsigned p).
Proof. apply Forall_map, Forall_forall. intros x _. apply byte_is_digit. Qed.

Lemma lxor_is_digit (x y : Z) : is_digit x -> is_digit y -> is_digit (Z.lxor x y).
Proof.
  unfold is_digit. intros Hx Hy.
  assert (H0 : 0 <= Z.lxor x y) by (apply Z.lxor_nonneg; lia).
  pose proof (lxor_mod256 x y) as Hm.
  rewrite (Z.mod_small x), (Z.mod_small y) in Hm by lia.
  pose proof (Z.mod_pos_bound (Z.lxor x y) 256). lia.
Qed.

Lemma builtin_popcount_digit (d : Z) : is_digit d -> builtin_popcount d = bitcount 8 d.
Proof. intros Hd. exact (bitcount_small 8 24 d Hd). Qed.

(** ** The reference distance *)

Lemma ref_distance_nil_r (a : list Z) : ref_distance a [] = zsum (map (bitcount 8) a).
Proof.
  induction a as [|x a IH]; [reflexivity|].
  cbn [ref_distance map zsum fold_right]. rewrite IH. reflexivity.
Qed.

Lemma ref_distance_sums (a b : list byte) :
  let m := Nat.min (length a) (length b) in
  let at_ (p : list byte) (j : nat) := byte.unsigned (nth j p Byte.x00) in
  zsum (map (fun j => bitcount 8 (Z.lxor (at_ a j) (at_ b j))) (seq 0 m))
  + zsum (map (fun j => bitcount 8 (at_ a j)) (seq m (length a - m)))
  + zsum (map (fun j => bitcount 8 (at_ b j)) (seq m (length b - m)))
  = ref_distance (map byte.unsigned a) (map byte.unsigned b).
Proof.
  cbv zeta. revert b; induction a as [|x a IH]; intros b.
  - cbn [length Nat.min Nat.sub seq map zsum fold_right ref_distance].
    rewrite Nat.sub_0_r.
    rewrite (zsum_nth_seq (fun y => bitcount 8 (byte.unsigned y))), map_map. lia.
  - destruct b as [|y b].
    + change (length (@nil byte)) with 0%nat.
      rewrite Nat.min_0_r, Nat.sub_0_r.
      rewrite (zsum_nth_seq (fun y => bitcount 8 (byte.unsigned y)) Byte.x00 (x :: a)).
      change (map byte.unsigned []) with (@nil Z).
      rewrite ref_distance_nil_r, map_map. cbn [Nat.sub seq map zsum fold_right]. lia.
    + cbn [length Nat.min Nat.sub seq map zsum fold_right ref_distance nth].
      rewrite <- IH. rewrite !zsum_seq_shift. cbn [nth].
      unfold zsum. lia.
Qed.

Lemma byte_at_of_nat (p : list byte) (j : nat) :
  byte_at p (Z.of_nat j) = byte.unsigned (nth j p Byte.x00).
Proof. unfold byte_at. rewrite Nat2Z.id. reflexivity. Qed.

Lemma prefix_sum_seq (a b : list byte) (n k : nat) :
  sum_from (fun i => builtin_popcount (Z.lxor (byte_at a i) (byte_at b i)))
    (Z.of_nat k) n
  = zsum (map (fun j => bitcount 8 (Z.lxor (byte.unsigned (nth j a Byte.x00))
                                           (byte.unsigned (nth j b Byte.x00))))
            (seq k n)).
Proof.
  rewrite sum_from_seq. f_equal. apply map_ext. intros j.
  rewrite !byte_at_of_nat.
  apply builtin_popcount_digit, lxor_is_digit; apply byte_is_digit.
Qed.

Lemma tail_sum_seq (p : list byte) (n k : nat) :
  sum_from (fun i => builtin_popcount (byte_at p i)) (Z.of_nat k) n
  = zsum (map (fun j => bitcount 8 (byte.unsigned (nth j p Byte.x00))) (seq k n)).
Proof.
  rewrite sum_from_seq. f_equal. apply map_ext. intros j.
  rewrite byte_at_of_nat. apply builtin_popcount_digit, byte_is_digit.
Qed.

(** The byte loops compute the reference distance, reduced to [int]. *)
Lemma general_path_ref (a b : list byte) :
  general_path a (blob_len a) b (blob_len b)
  = to_int (ref_distance (map byte.unsigned a) (map byte.unsigned b)).
Proof.
  rewrite <- ref_distance_sums. cbv zeta.
  unfold general_path, blob_len, for_range.
  set (la := length a). set (lb := length b).
  assert (Hlen : (if Z.of_nat la <? Z.of_nat lb then Z.of_nat la else Z.of_nat lb)
                 = Z.of_nat (Nat.min la lb))
    by (destruct (Z.ltb_spec (Z.of_nat la) (Z.of_nat lb)); lia).
  rewrite Hlen. set (m := Nat.min la lb).
  assert (H1 : for_loop (Z.to_nat (Z.of_nat m - 0)) 0
                 (fun i diff =>
                    int_add diff
                      (builtin_popcount (Z.lxor (byte_at a i) (byte_at b i)))) 0
               = to_int (zsum (map (fun j => bitcount 8
                                 (Z.lxor (byte.unsigned (nth j a Byte.x00))
                                         (byte.unsigned (nth j b Byte.x00))))
                               (seq 0 m)))).
  { change 0 with (to_int 0) at 3.
    rewrite (for_loop_sum
               (fun i => builtin_popcount (Z.lxor (byte_at a i) (byte_at b i)))).
    rewrite Z.sub_0_r, Nat2Z.id. change 0 with (Z.of_nat 0) at 2.
    rewrite prefix_sum_seq. f_equal. }
  rewrite H1. clear H1. rewrite !Z.gtb_ltb.
  destruct (Z.ltb_spec (Z.of_nat m) (Z.of_nat la)) as [Ha|Ha].
  - rewrite (for_loop_sum (fun i => builtin_popcount (byte_at a i))).
    replace (Z.to_nat (Z.of_nat la - Z.of_nat m)) with (la - m)%nat by lia.
    rewrite tail_sum_seq.
    replace (lb - m)%nat with 0%nat by lia. cbn [seq map zsum fold_right].
    f_equal. ring.
  - replace (la - m)%nat with 0%nat by lia.
    destruct (Z.ltb_spec (Z.of_nat m) (Z.of_nat lb)) as [Hb|Hb].
    + rewrite (for_loop_sum (fun i => builtin_popcount (byte_at b i))).
      replace (Z.to_nat (Z.of_nat lb - Z.of_nat m)) with (lb - m)%nat by lia.
      rewrite tail_sum_seq. cbn [seq map zsum fold_right]. f_equal. ring.
    + replace (lb - m)%nat with 0%nat by lia. cbn [seq map zsum fold_right].
      f_equal. ring.
Qed.

(** ** The word fast path *)

Lemma lxor_digits (xs ys : list Z) :
  length xs = length ys -> Forall is_digit xs -> Forall is_digit ys ->
  Z.lxor (digits_value xs) (digits_value ys)
  = digits_value (map (fun p => Z.lxor (fst p) (snd p)) (combine xs ys)).
Proof.
  intros Hlen Hxs; revert ys Hlen.
  induction Hxs as [|x xs Hx Hxs IH]; intros [|y ys] Hlen Hys;
    try discriminate; [reflexivity|].
  inversion Hys as [|? ? Hy Hys']; subst.
  cbn [combine map digits_value fold_right fst snd].
  fold (digits_value xs). fold (digits_value ys).
  fold (digits_value (map (fun p => Z.lxor (fst p) (snd p)) (combine xs ys))).
  rewrite lxor_split8 by assumption.
  rewrite IH by (try assumption; cbn in Hlen; lia). reflexivity.
Qed.

Lemma xor_digits_are_digits (xs ys : list Z) :
  Forall is_digit xs -> Forall is_digit ys ->
  Forall is_digit (map (fun p => Z.lxor (fst p) (snd p)) (combine xs ys)).
Proof.
  intros Hxs; revert ys. induction Hxs as [|x xs Hx Hxs IH]; intros ys Hys.
  - constructor.
  - destruct Hys as [|y ys Hy Hys]; cbn [combine map]; constructor.
    + apply lxor_is_digit; assumption.
    + apply IH, Hys.
Qed.

Lemma ref_distance_combine (xs ys : list Z) :
  length xs = length ys ->
  ref_distance xs ys = zsum (map xor_bits (combine xs ys)).
Proof.
  revert ys; induction xs as [|x xs IH]; intros [|y ys] Hlen; try discriminate.
  - reflexivity.
  - cbn [ref_distance combine map zsum fold_right]. rewrite IH by (cbn in Hlen; lia).
    reflexivity.
Qed.

Lemma popcount_xor_digits (pf : platform) (xs ys : list Z) :
  length xs = 8%nat -> length ys = 8%nat ->
  Forall is_digit xs -> Forall is_digit ys ->
  popcount_u64 pf (Z.lxor (digits_value xs) (digits_value ys))
  = zsum (map xor_bits (combine xs ys)).
Proof.
  intros Lx Ly Hxs Hys.
  rewrite lxor_digits by (assumption || congruence).
  pose proof (xor_digits_are_digits xs ys Hxs Hys) as Hd.
  rewrite <- (map_map (fun p => Z.lxor (fst p) (snd p)) (bitcount 8)
                (combine xs ys) : _ = map xor_bits (combine xs ys)).
  set (ds := map (fun p => Z.lxor (fst p) (snd p)) (combine xs ys)) in *.
  assert (Lc : length ds = 8%nat)
    by (unfold ds; rewrite length_map, length_combine, Lx, Ly; reflexivity).
  pose proof (digits_value_range _ Hd) as Hr. rewrite Lc in Hr.
  rewrite <- bitcount_digits by exact Hd. rewrite Lc.
  unfold popcount_u64. destruct (has_popcnt pf); [reflexivity|].
  apply popcount_u64_fallback_counts, Hr.
Qed.

(** The fast path computes the reference distance, in either byte order. *)
Lemma fast_path_ref (pf : platform) (a b : list byte) :
  length a = 8%nat -> length b = 8%nat ->
  fast_path pf a b = ref_distance (map byte.unsigned a) (map byte.unsigned b).
Proof.
  intros La Lb. unfold fast_path, load_u64.
  rewrite !firstn_all2 by lia.
  pose proof (bytes_are_digits a) as Ha. pose proof (bytes_are_digits b) as Hb.
  rewrite ref_distance_combine by (rewrite !length_map; congruence).
  destruct (order pf).
  - apply popcount_xor_digits; rewrite ?length_map; assumption.
  - rewrite popcount_xor_digits
      by (rewrite ?length_rev, ?length_map; try assumption; apply Forall_rev; assumption).
    destruct (length8 a La) as (a0 & a1 & a2 & a3 & a4 & a5 & a6 & a7 & ->).
    destruct (length8 b Lb) as (b0 & b1 & b2 & b3 & b4 & b5 & b6 & b7 & ->).
    cbn [map rev app combine zsum fold_right]. ring.
Qed.

(** ** Algebra of the reference distance *)

Lemma zsum_bits_range (xs : list Z) :
  0 <= zsum (map (bitcount 8) xs) <= 8 * Z.of_nat (length xs).
Proof.
  pose proof (zsum_range 8 (map (bitcount 8) xs)) as H.
  rewrite length_map in H. apply H.
  apply Forall_map, Forall_forall. intros x _. apply (bitcount_range 8).
Qed.

Lemma ref_distance_range (xs ys : list Z) :
  0 <= ref_distance xs ys <= 8 * Z.of_nat (Nat.max (length xs) (length ys)).
Proof.
  revert ys; induction xs as [|x xs IH]; intros ys.
  - cbn [ref_distance length Nat.max]. apply zsum_bits_range.
  - destruct ys as [|y ys]; cbn [ref_distance length Nat.max].
    + specialize (IH []). cbn [length] in IH. rewrite Nat.max_0_r in IH.
      pose proof (bitcount_range 8 x). lia.
    + specialize (IH ys). pose proof (bitcount_range 8 (Z.lxor x y)). lia.
Qed.

Lemma ref_distance_sym (xs ys : list Z) : ref_distance xs ys = ref_distance ys xs.
Proof.
  revert ys; induction xs as [|x xs IH]; intros ys.
  - rewrite ref_distance_nil_r. reflexivity.
  - destruct ys as [|y ys].
    + rewrite ref_distance_nil_r. reflexivity.
    + cbn [ref_distance]. rewrite IH, Z.lxor_comm. reflexivity.
Qed.

Lemma ref_distance_self (xs : list Z) : ref_distance xs xs = 0.
Proof.
  induction xs as [|x xs IH]; [reflexivity|].
  cbn [ref_distance]. rewrite Z.lxor_nilpotent, bitcount_zero, IH. reflexivity.
Qed.

Lemma lxor_half (x y : Z) : Z.lxor x y / 2 = Z.lxor (x / 2) (y / 2).
Proof.
  change 2 with (2 ^ 1). rewrite <- !Z.shiftr_div_pow2 by lia. apply Z.shiftr_lxor.
Qed.

Lemma lxor_odd (x y : Z) : Z.odd (Z.lxor x y) = xorb (Z.odd x) (Z.odd y).
Proof. rewrite <- !Z.bit0_odd. apply Z.lxor_spec. Qed.

Lemma bitcount_xor_triangle (w : nat) (x y z : Z) :
  bitcount w (Z.lxor x z) <= bitcount w (Z.lxor x y) + bitcount w (Z.lxor y z).
Proof.
  revert x y z; induction w as [|w IH]; intros x y z.
  - cbn. lia.
  - rewrite !bitcount_succ, !lxor_half, !lxor_odd.
    specialize (IH (x / 2) (y / 2) (z / 2)).
    destruct (Z.odd x), (Z.odd y), (Z.odd z); cbn [xorb Z.b2z]; lia.
Qed.

Lemma ref_distance_triangle (xs ys zs : list Z) :
  length xs = length ys -> length ys = length zs ->
  ref_distance xs zs <= ref_distance xs ys + ref_distance ys zs.
Proof.
  revert ys zs; induction xs as [|x xs IH]; intros [|y ys] [|z zs] H1 H2;
    try discriminate H1; try discriminate H2.
  - cbn. lia.
  - cbn [ref_distance].
    specialize (IH ys zs ltac:(cbn in H1; lia) ltac:(cbn in H2; lia)).
    pose proof (bitcount_xor_triangle 8 x y z). lia.
Qed.

Lemma ref_distance_zeros (k : nat) (ys : list Z) :
  ref_distance (repeat 0 k) ys = zsum (map (bitcount 8) ys).
Proof.
  revert ys; induction k as [|k IH]; intros ys; [reflexivity|].
  destruct ys as [|y ys]; cbn [repeat ref_distance map zsum fold_right].
  - rewrite IH. reflexivity.
  - rewrite IH, Z.lxor_0_l. reflexivity.
Qed.

Lemma ref_distance_pad_l (xs ys : list Z) (k : nat) :
  ref_distance (xs ++ repeat 0 k) ys = ref_distance xs ys.
Proof.
  revert ys; induction xs as [|x xs IH]; intros ys.
  - apply ref_distance_zeros.
  - destruct ys as [|y ys]; cbn [app ref_distance]; rewrite IH; reflexivity.
Qed.

Lemma ref_distance_pad_r (xs ys : list Z) (k : nat) :
  ref_distance xs (ys ++ repeat 0 k) = ref_distance xs ys.
Proof.
  rewrite ref_distance_sym, ref_distance_pad_l. apply ref_distance_sym.
Qed.

Lemma zero_extend_length (n : nat) (p : list byte) :
  (length p <= n)%nat -> length (zero_extend n p) = n.
Proof.
  intros H. unfold zero_extend. rewrite length_app, length_map, repeat_length. lia.
Qed.

Lemma zero_extend_digits (n : nat) (p : list byte) : Forall is_digit (zero_extend n p).
Proof.
  apply Forall_app. split; [apply bytes_are_digits|].
  apply Forall_forall. intros x Hx. apply repeat_spec in Hx. subst. unfold is_digit. lia.
Qed.

(** The distance on bit strings is the reference distance. *)
Lemma zero_extended_distance_ref (a b : list byte) :
  zero_extended_distance a b
  = ref_distance (map byte.unsigned a) (map byte.unsigned b).
Proof.
  unfold zero_extended_distance. cbv zeta.
  set (n := Nat.max (length a) (length b)).
  assert (La : length (zero_extend n a) = n) by (apply zero_extend_length; lia).
  assert (Lb : length (zero_extend n b) = n) by (apply zero_extend_length; lia).
  rewrite lxor_digits by (try apply zero_extend_digits; congruence).
  set (ds := map _ (combine _ _)).
  assert (Hd : Forall is_digit ds)
    by (apply xor_digits_are_digits; apply zero_extend_digits).
  assert (Ld : length ds = n)
    by (unfold ds; rewrite length_map, length_combine, La, Lb; lia).
  rewrite <- Ld, bitcount_digits by exact Hd.
  unfold ds. rewrite map_map.
  change (fun x => bitcount 8 (Z.lxor (fst x) (snd x))) with xor_bits.
  rewrite <- ref_distance_combine by congruence.
  unfold zero_extend. rewrite ref_distance_pad_l, ref_distance_pad_r. reflexivity.
Qed.

(** So is the sum over the common prefix plus the tail of the longer blob. *)
Lemma prefix_tail_distance_ref (a b : list byte) :
  prefix_tail_distance a b
  = ref_distance (map byte.unsigned a) (map byte.unsigned b).
Proof.
  unfold prefix_tail_distance. cbv zeta.
  revert b; induction a as [|x a IH]; intros b.
  - cbn [length Nat.min firstn map combine zsum fold_right skipn ref_distance].
    unfold longer. cbn [length]. destruct b; reflexivity.
  - destruct b as [|y b].
    + cbn [length Nat.min firstn map combine zsum fold_right skipn].
      unfold longer. cbn [length Nat.ltb Nat.leb].
      change (map byte.unsigned []) with (@nil Z).
      rewrite ref_distance_nil_r. reflexivity.
    + cbn [length Nat.min firstn map combine zsum fold_right ref_distance].
      fold (zsum (map xor_bits
                    (combine (map byte.unsigned (firstn (Nat.min (length a) (length b)) a))
                             (map byte.unsigned (firstn (Nat.min (length a) (length b)) b))))).
      rewrite <- IH. unfold xor_bits at 1. cbn [fst snd].
      assert (Hs : skipn (S (Nat.min (length a) (length b))) (longer (x :: a) (y :: b))
                   = skipn (Nat.min (length a) (length b)) (longer a b)).
      { unfold longer. cbn [length].
        change (S (length a) <? S (length b))%nat with (length a <? length b)%nat.
        destruct (length a <? length b)%nat; reflexivity. }
      rewrite Hs. ring.
Qed.

(** ** The engine against the reference distance *)

(** Whatever the lengths, the engine returns the reference distance reduced
    to [int]. *)
Lemma distance_ref (pf : platform) (a b : list byte) :
  distance pf a b
  = to_int (ref_distance (map byte.unsigned a) (map byte.unsigned b)).
Proof.
  unfold distance, hamming_distance_blob.
  destruct ((blob_len a =? 8) && (blob_len b =? 8)) eqn:E.
  - apply andb_prop in E. destruct E as [Ea Eb].
    apply Z.eqb_eq in Ea, Eb. unfold blob_len in Ea, Eb.
    rewrite fast_path_ref by lia.
    symmetry. apply to_int_small.
    pose proof (ref_distance_range (map byte.unsigned a) (map byte.unsigned b)) as H.
    rewrite !length_map in H. lia.
  - apply general_path_ref.
Qed.

Lemma distance_wraps (pf : platform) (a b : list byte) :
  distance pf a b = to_int (zero_extended_distance a b).
Proof. rewrite zero_extended_distance_ref. apply distance_ref. Qed.

Lemma zero_extended_distance_range (a b : list byte) :
  0 <= zero_extended_distance a b
    <= 8 * Z.max (blob_len a) (blob_len b).
Proof.
  rewrite zero_extended_distance_ref.
  pose proof (ref_distance_range (map byte.unsigned a) (map byte.unsigned b)) as H.
  rewrite !length_map in H. unfold blob_len. lia.
Qed.

(** While the bits of the longer blob fit an [int], the engine returns the
    distance of the specification, in both of its wordings. *)
Lemma distance_exact (pf : platform) (a b : list byte) :
  8 * Z.max (blob_len a) (blob_len b) <= INT_MAX ->
  hamming_distance_blob pf a (blob_len a) b (blob_len b) = zero_extended_distance a b
  /\ zero_extended_distance a b = prefix_tail_distance a b.
Proof.
  intros Hfit. split.
  - fold (distance pf a b). rewrite distance_wraps. apply to_int_small.
    pose proof (zero_extended_distance_range a b). unfold INT_MAX in Hfit. lia.
  - rewrite zero_extended_distance_ref, prefix_tail_distance_ref. reflexivity.
Qed.

(** Under the same bound the result lies between 0 and eight times the
    longer length. *)
Lemma distance_bounds (pf : platform) (a b : list byte) :
  8 * Z.max (blob_len a) (blob_len b) <= INT_MAX ->
  0 <= hamming_distance_blob pf a (blob_len a) b (blob_len b)
    <= 8 * Z.max (blob_len a) (blob_len b).
Proof.
  intros Hfit. destruct (distance_exact pf a b Hfit) as [-> _].
  apply zero_extended_distance_range.
Qed.

(** Under the same bound the triangle inequality holds on blobs of one
    length. *)
Lemma distance_triangle (pf : platform) (a b c : list byte) :
  length a = length b -> length b = length c ->
  8 * blob_len a <= INT_MAX ->
  hamming_distance_blob pf a (blob_len a) c (blob_len c)
  <= hamming_distance_blob pf a (blob_len a) b (blob_len b)
     + hamming_distance_blob pf b (blob_len b) c (blob_len c).
Proof.
  intros Hab Hbc Hfit.
  assert (Lb : blob_len b = blob_len a) by (unfold blob_len; congruence).
  assert (Lc : blob_len c = blob_len a) by (unfold blob_len; congruence).
  destruct (distance_exact pf a c) as [-> _]; [rewrite Lc; lia|].
  destruct (distance_exact pf a b) as [-> _]; [rewrite Lb; lia|].
  destruct (distance_exact pf b c) as [-> _]; [rewrite Lb, Lc; lia|].
  rewrite !zero_extended_distance_ref.
  apply ref_distance_triangle; rewrite !length_map; assumption.
Qed.

(** ** Where the bit count leaves the range of [int] *)

Lemma ref_distance_repeat (x y : Z) (n : nat) :
  ref_distance (repeat x n) (repeat y n) = Z.of_nat n * bitcount 8 (Z.lxor x y).
Proof.
  induction n as [|n IH]; [reflexivity|].
  cbn [repeat ref_distance]. rewrite IH. lia.
Qed.

Lemma distance_repeat (pf : platform) (x y : byte) (n : nat) :
  distance pf (repeat x n) (repeat y n)
  = to_int (Z.of_nat n * bitcount 8 (Z.lxor (byte.unsigned x) (byte.unsigned y))).
Proof. rewrite distance_ref, !map_repeat, ref_distance_repeat. reflexivity. Qed.

Lemma zero_extended_distance_repeat (x y : byte) (n : nat) :
  zero_extended_distance (repeat x n) (repeat y n)
  = Z.of_nat n * bitcount 8 (Z.lxor (byte.unsigned x) (byte.unsigned y)).
Proof.
  rewrite zero_extended_distance_ref, !map_repeat, ref_distance_repeat. reflexivity.
Qed.

Lemma overflow_len_value : Z.of_nat overflow_len = 268435456.
Proof. unfold overflow_len. apply Z2Nat.id. lia. Qed.

#[local] Opaque overflow_len.

Lemma blob_len_repeat (x : byte) (n : nat) : blob_len (repeat x n) = Z.of_nat n.
Proof. unfold blob_len. rewrite repeat_length. reflexivity. Qed.

(** At [2^28] bytes of [0xFF] against as many of [0x00] the bits that differ
    number [2^31], and the [int] accumulator has wrapped to [INT_MIN]. *)
Lemma distance_at_overflow_len (pf : platform) :
  distance pf (repeat Byte.xff overflow_len) (repeat Byte.x00 overflow_len) = INT_MIN
  /\ zero_extended_distance (repeat Byte.xff overflow_len) (repeat Byte.x00 overflow_len)
     = 2147483648.
Proof.
  rewrite distance_repeat, zero_extended_distance_repeat, overflow_len_value.
  split; reflexivity.
Qed.

(** ** The claims about the engine *)

(** C1, at the input where it fails.  The engine is meant to return the
    number of bit positions that differ after zero-extending the shorter
    blob.  For [2^28] bytes of [0xFF] and [2^28] bytes of [0x00], lengths an
    [int] holds, that number is [2^31]; the [int] accumulator of the byte
    loop has overflowed and the engine returns [-2^31]. *)
Theorem hamming_distance_blob_misses_bit_count (pf : platform) :
  let a := repeat Byte.xff overflow_len in
  let b := repeat Byte.x00 overflow_len in
  blob_len a = 268435456 /\ blob_len b = 268435456
  /\ blob_len a <= INT_MAX
  /\ zero_extended_distance a b = 2147483648
  /\ prefix_tail_distance a b = 2147483648
  /\ hamming_distance_blob pf a (blob_len a) b (blob_len b) = -2147483648.
Proof.
  cbv zeta. destruct (distance_at_overflow_len pf) as [Hd Hz].
  assert (La : blob_len (repeat Byte.xff overflow_len) = 268435456)
    by (rewrite blob_len_repeat; exact overflow_len_value).
  assert (Lb : blob_len (repeat Byte.x00 overflow_len) = 268435456)
    by (rewrite blob_len_repeat; exact overflow_len_value).
  split; [exact La|]. split; [exact Lb|].
  split; [rewrite La; unfold INT_MAX; lia|].
  split; [exact Hz|].
  split; [rewrite prefix_tail_distance_ref, <- zero_extended_distance_ref; exact Hz|].
  exact Hd.
Qed.

(** C2. On two blobs of eight bytes the word fast path (load both as 64-bit
    integers, XOR, population count) returns what the byte loop of the
    general path returns on the same blobs, in either byte order and with
    either population count. *)
Theorem fast_path_agrees_with_byte_loop (pf : platform) (a b : list byte) :
  length a = 8%nat -> length b = 8%nat ->
  fast_path pf a b = general_path a 8 b 8.
Proof.
  intros La Lb.
  assert (Ba : blob_len a = 8) by (unfold blob_len; lia).
  assert (Bb : blob_len b = 8) by (unfold blob_len; lia).
  replace (general_path a 8 b 8) with (general_path a (blob_len a) b (blob_len b))
    by (rewrite Ba, Bb; reflexivity).
  rewrite general_path_ref, fast_path_ref by assumption.
  symmetry. apply to_int_small.
  pose proof (ref_distance_range (map byte.unsigned a) (map byte.unsigned b)) as H.
  rewrite !length_map in H. lia.
Qed.

Lemma fast_path_agrees_with_byte_loop_witness :
  fast_path portable_be (repeat Byte.xa5 8) (repeat Byte.x0f 8)
  = general_path (repeat Byte.xa5 8) 8 (repeat Byte.x0f 8) 8.
Proof.
  apply (fast_path_agrees_with_byte_loop portable_be
           (repeat Byte.xa5 8) (repeat Byte.x0f 8)); reflexivity.
Defined.

(** C4. The distance is symmetric for blobs of any lengths, mismatched and
    zero lengths included. *)
Theorem hamming_distance_blob_symmetric (pf : platform) (a b : list byte) :
  hamming_distance_blob pf a (blob_len a) b (blob_len b)
  = hamming_distance_blob pf b (blob_len b) a (blob_len a).
Proof.
  fold (distance pf a b). fold (distance pf b a).
  rewrite !distance_ref. f_equal. apply ref_distance_sym.
Qed.

(** C5. The distance of a blob of any length to itself is 0, on the fast
    path (length 8) as on the general path. *)
Theorem hamming_distance_blob_self (pf : platform) (a : list byte) :
  hamming_distance_blob pf a (blob_len a) a (blob_len a) = 0.
Proof.
  fold (distance pf a a). rewrite distance_ref, ref_distance_self. reflexivity.
Qed.

(** C6, at the input where it fails.  For [2^28] bytes of [0x00] against
    [2^28] bytes of [0xFF] the bound [8 * max (alen, blen)] is [2^31], one
    more than [INT_MAX]; the accumulator has wrapped around and the value
    returned is negative. *)
Theorem hamming_distance_blob_wraps_around (pf : platform) :
  let a := repeat Byte.x00 overflow_len in
  let b := repeat Byte.xff overflow_len in
  blob_len a <= INT_MAX /\ blob_len b <= INT_MAX
  /\ 8 * Z.max (blob_len a) (blob_len b) = INT_MAX + 1
  /\ zero_extended_distance a b = INT_MAX + 1
  /\ hamming_distance_blob pf a (blob_len a) b (blob_len b) < 0.
Proof.
  cbv zeta.
  fold (distance pf (repeat Byte.x00 overflow_len) (repeat Byte.xff overflow_len)).
  rewrite distance_repeat, zero_extended_distance_repeat.
  rewrite !blob_len_repeat, overflow_len_value.
  unfold INT_MAX.
  split; [lia|]. split; [lia|]. split; [lia|]. split; [reflexivity|].
  reflexivity.
Qed.

(** C8, at the input where it fails.  With [a] and [c] both [2^28] bytes of
    [0x00] and [b] as many bytes of [0xFF], the distance from [a] to [c] is 0
    while both other distances have wrapped to [INT_MIN], so the triangle
    inequality is broken. *)
Theorem hamming_distance_blob_triangle_broken (pf : platform) :
  let a := repeat Byte.x00 overflow_len in
  let b := repeat Byte.xff overflow_len in
  let c := repeat Byte.x00 overflow_len in
  length a = length b /\ length b = length c /\ blob_len a <= INT_MAX
  /\ hamming_distance_blob pf a (blob_len a) c (blob_len c) = 0
  /\ hamming_distance_blob pf a (blob_len a) b (blob_len b) = INT_MIN
  /\ hamming_distance_blob pf b (blob_len b) c (blob_len c) = INT_MIN
  /\ ~ (hamming_distance_blob pf a (blob_len a) c (blob_len c)
        <= hamming_distance_blob pf a (blob_len a) b (blob_len b)
           + hamming_distance_blob pf b (blob_len b) c (blob_len c)).
Proof.
  cbv zeta.
  fold (distance pf (repeat Byte.x00 overflow_len) (repeat Byte.x00 overflow_len)).
  fold (distance pf (repeat Byte.x00 overflow_len) (repeat Byte.xff overflow_len)).
  fold (distance pf (repeat Byte.xff overflow_len) (repeat Byte.x00 overflow_len)).
  rewrite !distance_repeat, !repeat_length, blob_len_repeat, overflow_len_value.
  change (to_int (268435456 * bitcount 8 (Z.lxor (byte.unsigned Byte.x00)
                                                 (byte.unsigned Byte.x00))))
    with 0.
  change (to_int (268435456 * bitcount 8 (Z.lxor (byte.unsigned Byte.x00)
                                                 (byte.unsigned Byte.xff))))
    with INT_MIN.
  change (to_int (268435456 * bitcount 8 (Z.lxor (byte.unsigned Byte.xff)
                                                 (byte.unsigned Byte.x00))))
    with INT_MIN.
  unfold INT_MAX, INT_MIN.
  split; [reflexivity|]. split; [reflexivity|]. split; [lia|].
  split; [reflexivity|]. split; [reflexivity|]. split; [reflexivity|].
  lia.
Qed.

(** ** The claims about the host binding *)

Section HostBindingProperties.
Variable sqlite3_value_blob : sqlite3_value -> option (list byte).
Variable sqlite3_value_bytes : sqlite3_value -> Z.
Variable pf : platform.

(** A null pointer for either argument ends the call with a NULL result
    before the engine is reached. *)
Lemma null_pointer_skips_engine (ctx : sqlite3_context) (v0 v1 : sqlite3_value) :
  sqlite3_value_blob v0 = None \/ sqlite3_value_blob v1 = None ->
  hamming_distance_sql sqlite3_value_blob sqlite3_value_bytes pf ctx 2 [v0; v1]
  = sqlite3_result_null ctx.
Proof.
  intros H. unfold hamming_distance_sql. cbn [Z.eqb Pos.eqb negb arg nth].
  destruct H as [H | H]; rewrite H; [|destruct (sqlite3_value_blob v0)]; reflexivity.
Qed.

(** Two non-null pointers reach the engine, once, and its value is the
    result. *)
Lemma both_pointers_reach_engine (ctx : sqlite3_context) (v0 v1 : sqlite3_value)
    (a b : list byte) :
  sqlite3_value_blob v0 = Some a -> sqlite3_value_blob v1 = Some b ->
  let ctx' :=
    hamming_distance_sql sqlite3_value_blob sqlite3_value_bytes pf ctx 2 [v0; v1] in
  ctx_result ctx'
  = Some (ResultInt (hamming_distance_blob pf a (sqlite3_value_bytes v0)
                                           b (sqlite3_value_bytes v1)))
  /\ ctx_engine_calls ctx'
     = ctx_engine_calls ctx
       ++ [{| call_a := a; call_alen := sqlite3_value_bytes v0;
              call_b := b; call_blen := sqlite3_value_bytes v1 |}].
Proof.
  intros Ha Hb. cbv zeta. unfold hamming_distance_sql.
  cbn [Z.eqb Pos.eqb negb arg nth]. rewrite Ha, Hb. split; reflexivity.
Qed.

(** C3. Called with two arguments of which one is the SQL NULL (for which
    SQLite hands out the null pointer), the function sets the NULL result:
    not the integer 0, not an error; and it does not call the engine. *)
Theorem hamming_distance_sql_null_argument
    (ctx : sqlite3_context) (v0 v1 : sqlite3_value) :
  sqlite3_value_blob SqlNull = None ->
  v0 = SqlNull \/ v1 = SqlNull ->
  let ctx' :=
    hamming_distance_sql sqlite3_value_blob sqlite3_value_bytes pf ctx 2 [v0; v1] in
  ctx_result ctx' = Some ResultNull
  /\ ctx_result ctx' <> Some (ResultInt 0)
  /\ ctx_result ctx' <> Some ResultError
  /\ ctx_engine_calls ctx' = ctx_engine_calls ctx.
Proof.
  intros Hnull Hv. cbv zeta.
  rewrite null_pointer_skips_engine
    by (destruct Hv as [-> | ->]; [left | right]; exact Hnull).
  cbn. repeat split; discriminate.
Qed.

(** C9. Called with an argument count other than 2, the function sets the
    NULL result and returns at once: no argument is read and the engine is
    not called. *)
Theorem hamming_distance_sql_wrong_argc
    (ctx : sqlite3_context) (argc : Z) (argv : list sqlite3_value) :
  argc <> 2 ->
  let ctx' :=
    hamming_distance_sql sqlite3_value_blob sqlite3_value_bytes pf ctx argc argv in
  ctx' = sqlite3_result_null ctx
  /\ ctx_result ctx' = Some ResultNull
  /\ ctx_engine_calls ctx' = ctx_engine_calls ctx.
Proof.
  intros Hargc. cbv zeta. unfold hamming_distance_sql.
  apply Z.eqb_neq in Hargc. rewrite Hargc. cbn. repeat split.
Qed.

(** C10. Null-ness is decided by the blob pointers alone: whenever
    [sqlite3_value_blob] gives the null pointer for either argument, the
    result is NULL and the engine is not reached, and two non-null pointers
    always give an integer result.  With SQLite's accessors an empty blob is
    an argument with a null pointer, so the call on an empty blob and the
    blob [0xFF] yields NULL where the engine defines the distance 8. *)
Theorem hamming_distance_sql_null_pointer
    (ctx : sqlite3_context) (v0 v1 : sqlite3_value) :
  sqlite3_value_blob v0 = None \/ sqlite3_value_blob v1 = None ->
  let ctx' :=
    hamming_distance_sql sqlite3_value_blob sqlite3_value_bytes pf ctx 2 [v0; v1] in
  (ctx_result ctx' = Some ResultNull
   /\ ctx_engine_calls ctx' = ctx_engine_calls ctx)
  /\ (forall w0 w1 a b,
        sqlite3_value_blob w0 = Some a -> sqlite3_value_blob w1 = Some b ->
        ctx_result (hamming_distance_sql sqlite3_value_blob sqlite3_value_bytes
                      pf ctx 2 [w0; w1])
        = Some (ResultInt (hamming_distance_blob pf a (sqlite3_value_bytes w0)
                                                 b (sqlite3_value_bytes w1))))
  /\ (let empty_call :=
        hamming_distance_sql sqlite_value_blob sqlite_value_bytes pf
          ctx 2 [SqlBlob []; SqlBlob [Byte.xff]] in
      ctx_result empty_call = Some ResultNull
      /\ ctx_engine_calls empty_call = ctx_engine_calls ctx
      /\ hamming_distance_blob pf [] 0 [Byte.xff] 1 = 8).
Proof.
  intros H. cbv zeta. rewrite null_pointer_skips_engine by exact H.
  split; [split; reflexivity|]. split.
  - intros w0 w1 a b Ha Hb. apply both_pointers_reach_engine; assumption.
  - repeat split.
Qed.
End HostBindingProperties.

Lemma hamming_distance_sql_null_argument_witness :
  ctx_result (hamming_distance_sql sqlite_value_blob sqlite_value_bytes x86_64
                fresh_context 2 [SqlBlob [Byte.x01]; SqlNull])
  = Some ResultNull.
Proof.
  apply (hamming_distance_sql_null_argument sqlite_value_blob sqlite_value_bytes
           x86_64 fresh_context (SqlBlob [Byte.x01]) SqlNull).
  - reflexivity.
  - right. reflexivity.
Defined.

Lemma hamming_distance_sql_wrong_argc_witness :
  ctx_result (hamming_distance_sql sqlite_value_blob sqlite_value_bytes x86_64
                fresh_context 3 [SqlBlob [Byte.x01]; SqlBlob [Byte.x02]; SqlNull])
  = Some ResultNull.
Proof.
  apply (hamming_distance_sql_wrong_argc sqlite_value_blob sqlite_value_bytes
           x86_64 fresh_context 3 [SqlBlob [Byte.x01]; SqlBlob [Byte.x02]; SqlNull]).
  lia.
Defined.

Lemma hamming_distance_sql_null_pointer_witness :
  ctx_result (hamming_distance_sql sqlite_value_blob sqlite_value_bytes x86_64
                fresh_context 2 [SqlBlob [Byte.xff]; SqlBlob []])
  = Some ResultNull.
Proof.
  apply (hamming_distance_sql_null_pointer sqlite_value_blob sqlite_value_bytes
           x86_64 fresh_context (SqlBlob [Byte.xff]) (SqlBlob [])).
  right. reflexivity.
Defined.

(** * Further properties of the code *)

Lemma popcount_u64_bitcount (pf : platform) (x : Z) :
  0 <= x < 2 ^ 64 -> popcount_u64 pf x = bitcount 64 x.
Proof.
  intros Hx. unfold popcount_u64. destruct (has_popcnt pf);
    [reflexivity | apply popcount_u64_fallback_counts, Hx].
Qed.

Lemma distance_sym (pf : platform) (a b : list byte) :
  distance pf a b = distance pf b a.
Proof. rewrite !distance_ref. f_equal. apply ref_distance_sym. Qed.

Lemma distance_self (pf : platform) (a : list byte) : distance pf a a = 0.
Proof. rewrite distance_ref, ref_distance_self. reflexivity. Qed.

(** ** The engine on every input *)

(** Whatever the blobs, the engine returns the number of differing bits
    reduced to [int]: the value in [[INT_MIN, INT_MAX]] congruent to it
    modulo [2^32]. *)
Theorem hamming_distance_blob_modulo (pf : platform) (a b : list byte) :
  hamming_distance_blob pf a (blob_len a) b (blob_len b)
  = to_int (zero_extended_distance a b)
  /\ INT_MIN <= hamming_distance_blob pf a (blob_len a) b (blob_len b) <= INT_MAX
  /\ (hamming_distance_blob pf a (blob_len a) b (blob_len b)) mod 2 ^ 32
     = zero_extended_distance a b mod 2 ^ 32.
Proof.
  fold (distance pf a b). rewrite distance_wraps.
  split; [reflexivity|]. split; [apply to_int_range|].
  unfold to_int.
  rewrite <- Zminus_mod_idemp_l, Z.mod_mod, Zminus_mod_idemp_l by lia.
  f_equal. ring.
Qed.

(** While the bits of the longer blob fit an [int], the engine returns
    exactly the number of bit positions that differ after zero extension,
    which is the sum over the common prefix plus the bits of the tail. *)
Theorem hamming_distance_blob_exact (pf : platform) (a b : list byte) :
  8 * Z.max (blob_len a) (blob_len b) <= INT_MAX ->
  hamming_distance_blob pf a (blob_len a) b (blob_len b) = zero_extended_distance a b
  /\ hamming_distance_blob pf a (blob_len a) b (blob_len b) = prefix_tail_distance a b.
Proof.
  intros Hfit. destruct (distance_exact pf a b Hfit) as [E1 E2].
  split; [exact E1 | rewrite E1; exact E2].
Qed.

Lemma hamming_distance_blob_exact_witness :
  hamming_distance_blob portable_be [Byte.xb0; Byte.x01; Byte.x80] 3 [Byte.x10] 1 = 4.
Proof.
  destruct (hamming_distance_blob_exact portable_be
              [Byte.xb0; Byte.x01; Byte.x80] [Byte.x10]) as [E _].
  - vm_compute. discriminate.
  - exact E.
Defined.

(** Under the same bound the result is non-negative and at most eight times
    the longer length. *)
Theorem hamming_distance_blob_bounded (pf : platform) (a b : list byte) :
  8 * Z.max (blob_len a) (blob_len b) <= INT_MAX ->
  0 <= hamming_distance_blob pf a (blob_len a) b (blob_len b)
    <= 8 * Z.max (blob_len a) (blob_len b).
Proof. apply distance_bounds. Qed.

Lemma hamming_distance_blob_bounded_witness :
  0 <= hamming_distance_blob x86_64 [Byte.xff; Byte.xff] 2 [Byte.x0f] 1 <= 16.
Proof.
  apply (hamming_distance_blob_bounded x86_64 [Byte.xff; Byte.xff] [Byte.x0f]).
  vm_compute. discriminate.
Defined.

(** Under the same bound the triangle inequality holds on three blobs of one
    length. *)
Theorem hamming_distance_blob_triangle (pf : platform) (a b c : list byte) :
  length a = length b -> length b = length c ->
  8 * blob_len a <= INT_MAX ->
  hamming_distance_blob pf a (blob_len a) c (blob_len c)
  <= hamming_distance_blob pf a (blob_len a) b (blob_len b)
     + hamming_distance_blob pf b (blob_len b) c (blob_len c).
Proof. apply distance_triangle. Qed.

Lemma hamming_distance_blob_triangle_witness :
  hamming_distance_blob x86_64 [Byte.x0f] 1 [Byte.xf0] 1
  <= hamming_distance_blob x86_64 [Byte.x0f] 1 [Byte.xff] 1
     + hamming_distance_blob x86_64 [Byte.xff] 1 [Byte.xf0] 1.
Proof.
  apply (hamming_distance_blob_triangle x86_64 [Byte.x0f] [Byte.xff] [Byte.xf0]).
  - reflexivity.
  - reflexivity.
  - vm_compute. discriminate.
Defined.

(** The result does not depend on the platform: neither on the byte order
    in which the fast path loads its words nor on which population count
    was compiled in. *)
Theorem hamming_distance_blob_platform_independent
    (pf1 pf2 : platform) (a b : list byte) :
  hamming_distance_blob pf1 a (blob_len a) b (blob_len b)
  = hamming_distance_blob pf2 a (blob_len a) b (blob_len b).
Proof.
  fold (distance pf1 a b). fold (distance pf2 a b).
  rewrite !distance_ref. reflexivity.
Qed.

(** Trailing zero bytes do not count: appending any number of [0x00] bytes
    to either blob leaves the distance unchanged, also when that moves the
    call onto or off the fast path. *)
Theorem hamming_distance_blob_trailing_zeros
    (pf : platform) (a b : list byte) (j k : nat) :
  let a' := a ++ repeat Byte.x00 j in
  let b' := b ++ repeat Byte.x00 k in
  hamming_distance_blob pf a' (blob_len a') b' (blob_len b')
  = hamming_distance_blob pf a (blob_len a) b (blob_len b).
Proof.
  cbv zeta.
  fold (distance pf (a ++ repeat Byte.x00 j) (b ++ repeat Byte.x00 k)).
  fold (distance pf a b).
  rewrite !distance_ref, !map_app, !map_repeat.
  change (byte.unsigned Byte.x00) with 0.
  rewrite ref_distance_pad_l, ref_distance_pad_r. reflexivity.
Qed.

Lemma bitcount_zero_inv (w : nat) (x : Z) :
  bitcount w x = 0 -> x mod 2 ^ Z.of_nat w = 0.
Proof.
  revert x; induction w as [|w IH]; intros x H.
  - apply Z.mod_1_r.
  - rewrite bitcount_succ in H.
    pose proof (bitcount_range w (x / 2)) as Hr.
    assert (Hodd : Z.odd x = false) by (destruct (Z.odd x); cbn [Z.b2z] in H; [lia | reflexivity]).
    rewrite Hodd in H. cbn [Z.b2z] in H.
    specialize (IH (x / 2) ltac:(lia)).
    pose proof (Zmod_odd x) as Hm. rewrite Hodd in Hm.
    rewrite Nat2Z.inj_succ, Z.pow_succ_r by lia.
    assert (Hp : 0 < 2 ^ Z.of_nat w) by (apply Z.pow_pos_nonneg; lia).
    assert (Hx : x = (x / 2 / 2 ^ Z.of_nat w) * (2 * 2 ^ Z.of_nat w)).
    { pose proof (Z.div_mod x 2 ltac:(lia)) as D1.
      pose proof (Z.div_mod (x / 2) (2 ^ Z.of_nat w) ltac:(lia)) as D2.
      rewrite IH in D2. rewrite Hm in D1.
      rewrite D1 at 1. rewrite D2 at 1. ring. }
    rewrite Hx. apply Z.mod_mul. lia.
Qed.

Lemma xor_bits_zero_inv (x y : Z) :
  is_digit x -> is_digit y -> bitcount 8 (Z.lxor x y) = 0 -> x = y.
Proof.
  intros Hx Hy H. apply bitcount_zero_inv in H.
  pose proof (lxor_is_digit x y Hx Hy) as Hd. unfold is_digit in Hd.
  change (2 ^ Z.of_nat 8) with 256 in H. rewrite Z.mod_small in H by exact Hd.
  apply Z.lxor_eq, H.
Qed.

Lemma ref_distance_zero_inv (xs ys : list Z) :
  length xs = length ys -> Forall is_digit xs -> Forall is_digit ys ->
  ref_distance xs ys = 0 -> xs = ys.
Proof.
  intros Hlen Hxs; revert ys Hlen.
  induction Hxs as [|x xs Hx Hxs IH]; intros [|y ys] Hlen Hys H;
    try discriminate Hlen; [reflexivity|].
  inversion Hys as [|? ? Hy Hys']; subst. cbn [ref_distance] in H.
  pose proof (bitcount_range 8 (Z.lxor x y)).
  pose proof (ref_distance_range xs ys).
  f_equal.
  - apply xor_bits_zero_inv; try assumption. lia.
  - apply IH; try assumption; [cbn in Hlen; lia | lia].
Qed.

Lemma map_unsigned_inj (a b : list byte) :
  map byte.unsigned a = map byte.unsigned b -> a = b.
Proof.
  revert b; induction a as [|x a IH]; intros [|y b] H; try discriminate H;
    [reflexivity|].
  cbn [map] in H. injection H as Hxy Hab.
  f_equal; [apply byte.unsigned_inj, Hxy | apply IH, Hab].
Qed.

(** On blobs of one length whose bits fit an [int], the distance is 0
    exactly when the two blobs are equal. *)
Theorem hamming_distance_blob_zero_iff_equal (pf : platform) (a b : list byte) :
  length a = length b -> 8 * blob_len a <= INT_MAX ->
  hamming_distance_blob pf a (blob_len a) b (blob_len b) = 0 <-> a = b.
Proof.
  intros Hlen Hfit. split.
  - intros H.
    assert (Lb : blob_len b = blob_len a) by (unfold blob_len; congruence).
    destruct (distance_exact pf a b) as [E _]; [rewrite Lb; lia|].
    rewrite E, zero_extended_distance_ref in H.
    apply map_unsigned_inj, ref_distance_zero_inv;
      try apply bytes_are_digits; [rewrite !length_map; exact Hlen | exact H].
  - intros ->. apply distance_self.
Qed.

Lemma hamming_distance_blob_zero_iff_equal_witness :
  hamming_distance_blob x86_64 [Byte.x0f; Byte.x01] 2 [Byte.x0f; Byte.x01] 2 = 0
  <-> [Byte.x0f; Byte.x01] = [Byte.x0f; Byte.x01].
Proof.
  apply (hamming_distance_blob_zero_iff_equal x86_64
           [Byte.x0f; Byte.x01] [Byte.x0f; Byte.x01]).
  - reflexivity.
  - vm_compute. discriminate.
Defined.

Lemma ref_distance_app (xs1 xs2 ys1 ys2 : list Z) :
  length xs1 = length ys1 ->
  ref_distance (xs1 ++ xs2) (ys1 ++ ys2)
  = ref_distance xs1 ys1 + ref_distance xs2 ys2.
Proof.
  revert ys1; induction xs1 as [|x xs1 IH]; intros [|y ys1] Hlen;
    try discriminate Hlen.
  - cbn [app]. change (ref_distance [] []) with 0. lia.
  - cbn [app ref_distance]. rewrite IH by (cbn in Hlen; lia). ring.
Qed.

(** The distance adds up over concatenation: when the first parts have one
    length and the bits of the whole fit an [int], the distance of the
    concatenated blobs is the sum of the distances of the parts (so the
    distance of two 16-byte blobs is the sum of two fast-path calls on
    their halves). *)
Theorem hamming_distance_blob_concat
    (pf : platform) (a1 a2 b1 b2 : list byte) :
  length a1 = length b1 ->
  8 * Z.max (blob_len (a1 ++ a2)) (blob_len (b1 ++ b2)) <= INT_MAX ->
  hamming_distance_blob pf (a1 ++ a2) (blob_len (a1 ++ a2))
                           (b1 ++ b2) (blob_len (b1 ++ b2))
  = hamming_distance_blob pf a1 (blob_len a1) b1 (blob_len b1)
    + hamming_distance_blob pf a2 (blob_len a2) b2 (blob_len b2).
Proof.
  intros Hlen Hfit.
  assert (Hl : forall p q : list byte, blob_len (p ++ q) = blob_len p + blob_len q)
    by (intros p q; unfold blob_len; rewrite length_app; lia).
  rewrite !Hl in Hfit.
  assert (H0 : forall p : list byte, 0 <= blob_len p) by (intros p; unfold blob_len; lia).
  pose proof (H0 a1). pose proof (H0 a2). pose proof (H0 b1). pose proof (H0 b2).
  destruct (distance_exact pf (a1 ++ a2) (b1 ++ b2)) as [-> _]; [rewrite !Hl; lia|].
  destruct (distance_exact pf a1 b1) as [-> _]; [lia|].
  destruct (distance_exact pf a2 b2) as [-> _]; [lia|].
  rewrite !zero_extended_distance_ref, !map_app.
  apply ref_distance_app. rewrite !length_map. exact Hlen.
Qed.

Lemma hamming_distance_blob_concat_witness :
  hamming_distance_blob x86_64
    (repeat Byte.xff 8 ++ repeat Byte.x01 8) 16
    (repeat Byte.x0f 8 ++ repeat Byte.x00 8) 16
  = hamming_distance_blob x86_64 (repeat Byte.xff 8) 8 (repeat Byte.x0f 8) 8
    + hamming_distance_blob x86_64 (repeat Byte.x01 8) 8 (repeat Byte.x00 8) 8.
Proof.
  apply (hamming_distance_blob_concat x86_64
           (repeat Byte.xff 8) (repeat Byte.x01 8)
           (repeat Byte.x0f 8) (repeat Byte.x00 8)).
  - reflexivity.
  - vm_compute. discriminate.
Defined.

(** ** The lengths the caller passes *)

Lemma for_loop_ext (n : nat) (i : Z) (body1 body2 : Z -> Z -> Z) (s : Z) :
  (forall j d, i <= j < i + Z.of_nat n -> body1 j d = body2 j d) ->
  for_loop n i body1 s = for_loop n i body2 s.
Proof.
  revert i s; induction n as [|n IH]; intros i s H; cbn [for_loop]; [reflexivity|].
  rewrite H by lia. apply IH. intros j d Hj. apply H. lia.
Qed.

Lemma byte_at_firstn (p : list byte) (n : nat) (i : Z) :
  0 <= i < Z.of_nat n -> byte_at (firstn n p) i = byte_at p i.
Proof.
  intros Hi. unfold byte_at. rewrite nth_firstn.
  destruct (Nat.ltb_spec (Z.to_nat i) n); [reflexivity | lia].
Qed.

Lemma blob_len_firstn (p : list byte) (n : Z) :
  0 <= n <= blob_len p -> blob_len (firstn (Z.to_nat n) p) = n.
Proof. unfold blob_len. intros H. rewrite length_firstn. lia. Qed.

(** The engine reads a blob only below the length it is given: called with
    lengths that do not exceed the blobs, it returns the distance of the
    prefixes of those lengths, whatever bytes follow them. *)
Theorem hamming_distance_blob_reads_prefixes
    (pf : platform) (a : list byte) (alen : Z) (b : list byte) (blen : Z) :
  0 <= alen <= blob_len a -> 0 <= blen <= blob_len b ->
  let a' := firstn (Z.to_nat alen) a in
  let b' := firstn (Z.to_nat blen) b in
  hamming_distance_blob pf a alen b blen
  = hamming_distance_blob pf a' (blob_len a') b' (blob_len b').
Proof.
  intros Ha Hb. cbv zeta. rewrite !blob_len_firstn by assumption.
  unfold hamming_distance_blob.
  destruct ((alen =? 8) && (blen =? 8)) eqn:E.
  - apply andb_prop in E. destruct E as [Ea Eb]. apply Z.eqb_eq in Ea, Eb. subst.
    unfold fast_path, load_u64. change (Z.to_nat 8) with 8%nat.
    rewrite !firstn_firstn. reflexivity.
  - unfold general_path, for_range.
    set (len := if alen <? blen then alen else blen).
    assert (Hlen : 0 <= len /\ len <= alen /\ len <= blen)
      by (unfold len; destruct (Z.ltb_spec alen blen); lia).
    set (na := Z.to_nat alen). set (nb := Z.to_nat blen).
    assert (H1 : for_loop (Z.to_nat (len - 0)) 0
                   (fun i diff =>
                      int_add diff
                        (builtin_popcount (Z.lxor (byte_at a i) (byte_at b i)))) 0
                 = for_loop (Z.to_nat (len - 0)) 0
                     (fun i diff =>
                        int_add diff
                          (builtin_popcount
                             (Z.lxor (byte_at (firstn na a) i)
                                     (byte_at (firstn nb b) i)))) 0).
    { apply for_loop_ext. intros j d Hj.
      rewrite !byte_at_firstn by (unfold na, nb; lia). reflexivity. }
    rewrite H1.
    destruct (alen >? len); [|destruct (blen >? len)]; try reflexivity.
    + apply for_loop_ext. intros j d Hj.
      rewrite byte_at_firstn by (unfold na; lia). reflexivity.
    + apply for_loop_ext. intros j d Hj.
      rewrite byte_at_firstn by (unfold nb; lia). reflexivity.
Qed.

Lemma hamming_distance_blob_reads_prefixes_witness :
  hamming_distance_blob x86_64 [Byte.x0f; Byte.xff; Byte.xff] 1 [Byte.x01; Byte.x80] 1
  = hamming_distance_blob x86_64 [Byte.x0f] 1 [Byte.x01] 1.
Proof.
  apply (hamming_distance_blob_reads_prefixes x86_64
           [Byte.x0f; Byte.xff; Byte.xff] 1 [Byte.x01; Byte.x80] 1).
  - vm_compute. split; discriminate.
  - vm_compute. split; discriminate.
Defined.

(** ** The accumulator of the byte loop *)

(** While the bits up to the shorter length fit an [int], no addition of
    the first loop overflows: after each of its iterations [diff] is the
    plain sum of the population counts added so far, between 0 and eight
    times the number of iterations. *)
Theorem prefix_loop_never_overflows (a b : list byte) (len : Z) (k : nat) :
  0 <= len -> 8 * len <= INT_MAX -> (k <= Z.to_nat len)%nat ->
  let body := fun i diff =>
    int_add diff (builtin_popcount (Z.lxor (byte_at a i) (byte_at b i))) in
  for_loop k 0 body 0
  = sum_from (fun i => builtin_popcount (Z.lxor (byte_at a i) (byte_at b i))) 0 k
  /\ 0 <= for_loop k 0 body 0 <= 8 * Z.of_nat k.
Proof.
  intros Hlen Hfit Hk. cbv zeta.
  set (g := fun i => builtin_popcount (Z.lxor (byte_at a i) (byte_at b i))).
  assert (Hg : forall j, 0 <= g j <= 8).
  { intros j. unfold g. rewrite builtin_popcount_digit
      by (apply lxor_is_digit; apply byte_is_digit).
    apply (bitcount_range 8). }
  assert (Hsum : forall n i, 0 <= sum_from g i n <= 8 * Z.of_nat n).
  { induction n as [|n IH]; intros i; cbn [sum_from]; [lia|].
    specialize (IH (i + 1)). specialize (Hg i). lia. }
  change (for_loop k 0 (fun i diff => int_add diff (g i)) 0 = sum_from g 0 k
          /\ 0 <= for_loop k 0 (fun i diff => int_add diff (g i)) 0 <= 8 * Z.of_nat k).
  pose proof (Hsum k 0) as Hk0.
  destruct (for_loop_exact g k k 0 0) as [E _];
    [intros j; apply Hg | lia | unfold INT_MAX in *; lia | lia |].
  rewrite E. split; lia.
Qed.

Lemma prefix_loop_never_overflows_witness :
  0 <= for_loop 2 0
         (fun i diff =>
            int_add diff
              (builtin_popcount (Z.lxor (byte_at [Byte.xff; Byte.x0f; Byte.x01] i)
                                        (byte_at [Byte.x00; Byte.x00; Byte.x00] i))))
         0
    <= 16.
Proof.
  apply (prefix_loop_never_overflows
           [Byte.xff; Byte.x0f; Byte.x01] [Byte.x00; Byte.x00; Byte.x00] 3 2).
  - lia.
  - vm_compute. discriminate.
  - vm_compute. lia.
Defined.

(** ** More on the population count *)

(** The count of a 64-bit value lies between 0 and 64, so the cast of the
    portable branch to [int] never truncates. *)
Theorem popcount_u64_range (pf : platform) (x : Z) :
  0 <= x < 2 ^ 64 -> 0 <= popcount_u64 pf x <= 64.
Proof.
  intros Hx. rewrite (popcount_u64_bitcount pf x Hx).
  apply (bitcount_range 64).
Qed.

Lemma popcount_u64_range_witness : 0 <= popcount_u64 portable_be 0xF0F0 <= 64.
Proof. apply (popcount_u64_range portable_be 0xF0F0). lia. Defined.

(** Only zero has no bit set. *)
Theorem popcount_u64_zero_iff (pf : platform) (x : Z) :
  0 <= x < 2 ^ 64 -> popcount_u64 pf x = 0 <-> x = 0.
Proof.
  intros Hx. rewrite (popcount_u64_bitcount pf x Hx). split.
  - intros H. apply bitcount_zero_inv in H.
    change (2 ^ Z.of_nat 64) with (2 ^ 64) in H.
    rewrite Z.mod_small in H by exact Hx. exact H.
  - intros ->. apply bitcount_zero.
Qed.

Lemma popcount_u64_zero_iff_witness : popcount_u64 portable_be 0 = 0 <-> 0 = 0.
Proof. apply (popcount_u64_zero_iff portable_be 0). lia. Defined.

Lemma bitcount_complement (w : nat) (x : Z) :
  0 <= x < 2 ^ Z.of_nat w ->
  bitcount w (2 ^ Z.of_nat w - 1 - x) = Z.of_nat w - bitcount w x.
Proof.
  revert x; induction w as [|w IH]; intros x Hx.
  - reflexivity.
  - rewrite Nat2Z.inj_succ, Z.pow_succ_r in * by lia.
    set (M := 2 ^ Z.of_nat w) in *.
    rewrite !bitcount_succ.
    assert (Hhalf : (2 * M - 1 - x) / 2 = M - 1 - x / 2)
      by (Z.div_mod_to_equations; lia).
    assert (Hodd : Z.odd (2 * M - 1 - x) = negb (Z.odd x)).
    { pose proof (Zmod_odd x) as H1. pose proof (Zmod_odd (2 * M - 1 - x)) as H2.
      destruct (Z.odd x), (Z.odd (2 * M - 1 - x)); try reflexivity;
        exfalso; Z.div_mod_to_equations; lia. }
    rewrite Hhalf, Hodd, IH by (Z.div_mod_to_equations; lia).
    destruct (Z.odd x); cbn [negb Z.b2z]; lia.
Qed.

(** Complementing all 64 bits turns a count of [n] into [64 - n]. *)
Theorem popcount_u64_complement (pf : platform) (x : Z) :
  0 <= x < 2 ^ 64 ->
  popcount_u64 pf (2 ^ 64 - 1 - x) = 64 - popcount_u64 pf x.
Proof.
  intros Hx.
  rewrite (popcount_u64_bitcount pf x Hx).
  rewrite (popcount_u64_bitcount pf (2 ^ 64 - 1 - x)) by lia.
  exact (bitcount_complement 64 x Hx).
Qed.

Lemma popcount_u64_complement_witness :
  popcount_u64 portable_be (2 ^ 64 - 1 - 0xFF) = 64 - popcount_u64 portable_be 0xFF.
Proof. apply (popcount_u64_complement portable_be 0xFF). lia. Defined.

Lemma load_u64_range (o : byte_order) (p : list byte) : 0 <= load_u64 o p < 2 ^ 64.
Proof.
  assert (H : forall ds, Forall is_digit ds -> (length ds <= 8)%nat ->
                         0 <= digits_value ds < 2 ^ 64).
  { intros ds Hd Hl. pose proof (digits_value_range ds Hd) as Hr.
    assert (256 ^ Z.of_nat (length ds) <= 256 ^ 8)
      by (apply Z.pow_le_mono_r; lia).
    change (256 ^ 8) with (2 ^ 64) in *. lia. }
  pose proof (length_firstn 8 p) as Hl.
  unfold load_u64. destruct o; apply H;
    try apply Forall_rev; try apply bytes_are_digits;
    rewrite ?length_rev, length_map; lia.
Qed.

Lemma zsum_rev (l : list Z) : zsum (rev l) = zsum l.
Proof.
  induction l as [|x l IH]; [reflexivity|].
  cbn [rev]. rewrite zsum_app, IH. cbn [zsum fold_right]. fold (zsum l). ring.
Qed.

(** The population count of a word loaded from eight bytes is the sum of
    the bit counts of the bytes, in either byte order: what the fast path
    counts in one word is what the byte loop adds up byte by byte. *)
Theorem popcount_of_loaded_word (pf : platform) (o : byte_order) (p : list byte) :
  length p = 8%nat ->
  popcount_u64 pf (load_u64 o p) = zsum (map (bitcount 8) (map byte.unsigned p)).
Proof.
  intros Hp.
  rewrite (popcount_u64_bitcount pf (load_u64 o p) (load_u64_range o p)).
  unfold load_u64. rewrite firstn_all2 by lia.
  pose proof (bytes_are_digits p) as Hd.
  destruct o.
  - change 64%nat with (8 * 8)%nat. rewrite <- Hp at 2.
    rewrite <- (length_map byte.unsigned p). apply bitcount_digits, Hd.
  - assert (Hr : length (rev (map byte.unsigned p)) = 8%nat)
      by (rewrite length_rev, length_map; exact Hp).
    change 64%nat with (8 * 8)%nat. rewrite <- Hr at 2.
    rewrite bitcount_digits by (apply Forall_rev, Hd).
    rewrite map_rev. apply zsum_rev.
Qed.

Lemma popcount_of_loaded_word_witness :
  popcount_u64 portable_be
    (load_u64 BigEndian [Byte.x01; Byte.x03; Byte.x07; Byte.x0f;
                         Byte.x00; Byte.xff; Byte.x80; Byte.x10])
  = 20.
Proof.
  rewrite (popcount_of_loaded_word portable_be BigEndian
             [Byte.x01; Byte.x03; Byte.x07; Byte.x0f;
              Byte.x00; Byte.xff; Byte.x80; Byte.x10]); reflexivity.
Defined.

(** ** More on the host binding *)



Section HostBindingFurther.
Variable sqlite3_value_blob : sqlite3_value -> option (list byte).
Variable sqlite3_value_bytes : sqlite3_value -> Z.
Variable pf : platform.


(** When both pointers are non-null, the lengths are those of the blobs and
    their bits fit an [int], the result is the integer number of differing
    bits of the two blobs. *)
Theorem hamming_distance_sql_returns_bit_count
    (ctx : sqlite3_context) (v0 v1 : sqlite3_value) (a b : list byte) :
  sqlite3_value_blob v0 = Some a -> sqlite3_value_blob v1 = Some b ->
  sqlite3_value_bytes v0 = blob_len a -> sqlite3_value_bytes v1 = blob_len b ->
  8 * Z.max (blob_len a) (blob_len b) <= INT_MAX ->
  ctx_result
    (hamming_distance_sql sqlite3_value_blob sqlite3_value_bytes pf ctx 2 [v0; v1])
  = Some (ResultInt (zero_extended_distance a b)).
Proof.
  intros Ha Hb La Lb Hfit.
  destruct (both_pointers_reach_engine sqlite3_value_blob sqlite3_value_bytes pf
              ctx v0 v1 a b Ha Hb) as [E _].
  rewrite E, La, Lb. destruct (distance_exact pf a b Hfit) as [-> _]. reflexivity.
Qed.

(** Swapping the two arguments does not change the result, NULL results
    included, when the length reported for each non-null pointer is that of
    its blob. *)
Theorem hamming_distance_sql_symmetric
    (ctx : sqlite3_context) (v0 v1 : sqlite3_value) :
  (forall a, sqlite3_value_blob v0 = Some a -> sqlite3_value_bytes v0 = blob_len a) ->
  (forall b, sqlite3_value_blob v1 = Some b -> sqlite3_value_bytes v1 = blob_len b) ->
  ctx_result
    (hamming_distance_sql sqlite3_value_blob sqlite3_value_bytes pf ctx 2 [v0; v1])
  = ctx_result
      (hamming_distance_sql sqlite3_value_blob sqlite3_value_bytes pf ctx 2 [v1; v0]).
Proof.
  intros L0 L1.
  destruct (sqlite3_value_blob v0) as [a|] eqn:Ha;
    destruct (sqlite3_value_blob v1) as [b|] eqn:Hb.
  - destruct (both_pointers_reach_engine sqlite3_value_blob sqlite3_value_bytes pf
                ctx v0 v1 a b Ha Hb) as [-> _].
    destruct (both_pointers_reach_engine sqlite3_value_blob sqlite3_value_bytes pf
                ctx v1 v0 b a Hb Ha) as [-> _].
    rewrite (L0 a eq_refl), (L1 b eq_refl).
    f_equal. f_equal. apply distance_sym.
  - rewrite !null_pointer_skips_engine by (rewrite ?Ha, ?Hb; auto). reflexivity.
  - rewrite !null_pointer_skips_engine by (rewrite ?Ha, ?Hb; auto). reflexivity.
  - rewrite !null_pointer_skips_engine by (rewrite ?Ha, ?Hb; auto). reflexivity.
Qed.

(** A value with a non-null pointer and its true length is at distance 0
    from itself. *)
Theorem hamming_distance_sql_self
    (ctx : sqlite3_context) (v : sqlite3_value) (a : list byte) :
  sqlite3_value_blob v = Some a -> sqlite3_value_bytes v = blob_len a ->
  ctx_result
    (hamming_distance_sql sqlite3_value_blob sqlite3_value_bytes pf ctx 2 [v; v])
  = Some (ResultInt 0).
Proof.
  intros Ha La.
  destruct (both_pointers_reach_engine sqlite3_value_blob sqlite3_value_bytes pf
              ctx v v a a Ha Ha) as [-> _].
  rewrite La. f_equal. f_equal. apply distance_self.
Qed.
End HostBindingFurther.

Lemma hamming_distance_sql_returns_bit_count_witness :
  ctx_result
    (hamming_distance_sql sqlite_value_blob sqlite_value_bytes x86_64 fresh_context 2
       [SqlBlob [Byte.xb0; Byte.x01]; SqlBlob [Byte.x10]])
  = Some (ResultInt 3).
Proof.
  apply (hamming_distance_sql_returns_bit_count sqlite_value_blob sqlite_value_bytes
           x86_64 fresh_context (SqlBlob [Byte.xb0; Byte.x01]) (SqlBlob [Byte.x10])
           [Byte.xb0; Byte.x01] [Byte.x10]).
  - reflexivity.
  - reflexivity.
  - reflexivity.
  - reflexivity.
  - vm_compute. discriminate.
Defined.

Lemma hamming_distance_sql_symmetric_witness :
  ctx_result
    (hamming_distance_sql sqlite_value_blob sqlite_value_bytes x86_64 fresh_context 2
       [SqlBlob [Byte.xb0; Byte.x01]; SqlNull])
  = ctx_result
      (hamming_distance_sql sqlite_value_blob sqlite_value_bytes x86_64 fresh_context 2
         [SqlNull; SqlBlob [Byte.xb0; Byte.x01]]).
Proof.
  apply (hamming_distance_sql_symmetric sqlite_value_blob sqlite_value_bytes
           x86_64 fresh_context (SqlBlob [Byte.xb0; Byte.x01]) SqlNull).
  - intros a H. injection H as <-. reflexivity.
  - intros b H. discriminate H.
Defined.

Lemma hamming_distance_sql_self_witness :
  ctx_result
    (hamming_distance_sql sqlite_value_blob sqlite_value_bytes portable_be
       fresh_context 2 [SqlBlob [Byte.xb0]; SqlBlob [Byte.xb0]])
  = Some (ResultInt 0).
Proof.
  apply (hamming_distance_sql_self sqlite_value_blob sqlite_value_bytes
           portable_be fresh_context (SqlBlob [Byte.xb0]) [Byte.xb0]); reflexivity.
Defined.
